(** * FlightControllerPlugin: the lock-step bridge between an agent and the simulator

    A shallow embedding of
    [gymfc/envs/assets/gazebo/plugins/FlightControllerPlugin.cpp].

    The plugin receives [Action] datagrams, advances the simulation one tick
    per action, waits until the sensor plugins have reported, and answers with
    a [State] datagram.  The embedding follows the member functions of the C++
    class one by one and keeps their names.

    Conventions.
    - Protobuf [float] and [double] values are primitive binary64 floats; every
      binary32 value is one of them, and the comparison of the settle loop
      promotes its operands to [double] in the source as well.
    - A protobuf repeated field is a [list]; [add_x] appends, [x_size] is the
      length, and the unchecked accessors [x(i)] and [set_x(i, v)] are partial:
      outside the current size they have no defined result ([None]).
    - The members shared with the callback threads are only touched while
      [g_CallbackMutex] is held, so a callback is one atomic function on the
      plugin. *)

From Stdlib Require Import ZArith String Ascii PrimFloat.
From Stdlib.Strings Require Import Byte.
From stdpp Require Import base option list.

Local Open Scope Z_scope.

(** ** Wire and sensor messages *)

Inductive Sensors := IMU | ESC.

Inductive WorldControl := STEP | RESET.

Inductive StatusCode := OK | ERROR.

Global Instance Sensors_eq_dec : EqDecision Sensors.
Proof. solve_decision. Defined.

Global Instance WorldControl_eq_dec : EqDecision WorldControl.
Proof. solve_decision. Defined.

Global Instance StatusCode_eq_dec : EqDecision StatusCode.
Proof. solve_decision. Defined.

(** [gymfc::msgs::Action]: the command and one motor value per actuator. *)
Record Action := {
  motor : list float;
  world_control : WorldControl
}.

(** [gymfc::msgs::State].  [sim_time] is the simulation clock, counted in
    ticks of the fixed step size. *)
Record State := {
  sim_time : nat;
  status_code : StatusCode;
  imu_angular_velocity_rpy : list float;
  imu_orientation_quat : list float;
  imu_linear_acceleration_xyz : list float;
  esc_motor_angular_velocity : list float;
  esc_temperature : list float;
  esc_current : list float;
  esc_voltage : list float
}.

(** A freshly constructed protobuf message: every repeated field is empty. *)
Definition State_new : State :=
  {| sim_time := 0; status_code := OK;
     imu_angular_velocity_rpy := []; imu_orientation_quat := [];
     imu_linear_acceleration_xyz := [];
     esc_motor_angular_velocity := []; esc_temperature := [];
     esc_current := []; esc_voltage := [] |}.

Definition Action_new : Action := {| motor := []; world_control := STEP |}.

Module Vector3d.
Record t := { x : float; y : float; z : float }.
End Vector3d.

Module Quaternion.
Record t := { w : float; x : float; y : float; z : float }.
End Quaternion.

(** [sensor_msgs::msgs::Imu]. *)
Record Imu := {
  angular_velocity : Vector3d.t;
  orientation : Quaternion.t;
  linear_acceleration : Vector3d.t
}.

(** [sensor_msgs::msgs::EscSensor]; [id] is read into a [uint32_t]. *)
Record EscSensor := {
  id : nat;
  motor_speed : float;
  temperature : float;
  current : float;
  voltage : float
}.

(** The peer of the last datagram ([remaddr]). *)
Definition Addr := Z.

(** ** The plugin object *)

Record Plugin := {
  numActuators : nat;
  supportedSensors : list Sensors;
  numSensorCallbacks : Z;
  sensorCallbackCount : Z;
  digitalTwinSDF : string;
  state : State;
  action : Action;
  remaddr : Addr
}.

Definition with_state (p : Plugin) (s : State) : Plugin :=
  {| numActuators := numActuators p; supportedSensors := supportedSensors p;
     numSensorCallbacks := numSensorCallbacks p;
     sensorCallbackCount := sensorCallbackCount p;
     digitalTwinSDF := digitalTwinSDF p; state := s; action := action p;
     remaddr := remaddr p |}.

Definition with_sensorCallbackCount (p : Plugin) (c : Z) : Plugin :=
  {| numActuators := numActuators p; supportedSensors := supportedSensors p;
     numSensorCallbacks := numSensorCallbacks p;
     sensorCallbackCount := c;
     digitalTwinSDF := digitalTwinSDF p; state := state p; action := action p;
     remaddr := remaddr p |}.

Definition with_numSensorCallbacks (p : Plugin) (c : Z) : Plugin :=
  {| numActuators := numActuators p; supportedSensors := supportedSensors p;
     numSensorCallbacks := c;
     sensorCallbackCount := sensorCallbackCount p;
     digitalTwinSDF := digitalTwinSDF p; state := state p; action := action p;
     remaddr := remaddr p |}.

Definition with_numActuators (p : Plugin) (n : nat) : Plugin :=
  {| numActuators := n; supportedSensors := supportedSensors p;
     numSensorCallbacks := numSensorCallbacks p;
     sensorCallbackCount := sensorCallbackCount p;
     digitalTwinSDF := digitalTwinSDF p; state := state p; action := action p;
     remaddr := remaddr p |}.

Definition with_supportedSensors (p : Plugin) (l : list Sensors) : Plugin :=
  {| numActuators := numActuators p; supportedSensors := l;
     numSensorCallbacks := numSensorCallbacks p;
     sensorCallbackCount := sensorCallbackCount p;
     digitalTwinSDF := digitalTwinSDF p; state := state p; action := action p;
     remaddr := remaddr p |}.

Definition with_digitalTwinSDF (p : Plugin) (f : string) : Plugin :=
  {| numActuators := numActuators p; supportedSensors := supportedSensors p;
     numSensorCallbacks := numSensorCallbacks p;
     sensorCallbackCount := sensorCallbackCount p;
     digitalTwinSDF := f; state := state p; action := action p;
     remaddr := remaddr p |}.

Definition with_received (p : Plugin) (a : Action) (from : Addr) : Plugin :=
  {| numActuators := numActuators p; supportedSensors := supportedSensors p;
     numSensorCallbacks := numSensorCallbacks p;
     sensorCallbackCount := sensorCallbackCount p;
     digitalTwinSDF := digitalTwinSDF p; state := state p; action := a;
     remaddr := from |}.

(** ** Repeated-field accessors *)

(** [RepeatedField::Set(i, v)]: no bounds check in the source; the write is
    defined only inside the current size. *)
Definition set_at (l : list float) (i : nat) (v : float) : option (list float) :=
  if decide (i < length l)%nat then Some (<[i := v]> l) else None.

(** [RepeatedField::Get(i)]. *)
Definition get_at (l : list float) (i : nat) : option float := l !! i.

(** [RepeatedField::Add(v)]. *)
Definition add (l : list float) (v : float) : list float := l ++ [v].

Definition set_imu_angular_velocity_rpy i v (s : State) : option State :=
  l ← set_at (imu_angular_velocity_rpy s) i v;
  Some {| sim_time := sim_time s; status_code := status_code s;
          imu_angular_velocity_rpy := l;
          imu_orientation_quat := imu_orientation_quat s;
          imu_linear_acceleration_xyz := imu_linear_acceleration_xyz s;
          esc_motor_angular_velocity := esc_motor_angular_velocity s;
          esc_temperature := esc_temperature s;
          esc_current := esc_current s; esc_voltage := esc_voltage s |}.

Definition set_imu_orientation_quat i v (s : State) : option State :=
  l ← set_at (imu_orientation_quat s) i v;
  Some {| sim_time := sim_time s; status_code := status_code s;
          imu_angular_velocity_rpy := imu_angular_velocity_rpy s;
          imu_orientation_quat := l;
          imu_linear_acceleration_xyz := imu_linear_acceleration_xyz s;
          esc_motor_angular_velocity := esc_motor_angular_velocity s;
          esc_temperature := esc_temperature s;
          esc_current := esc_current s; esc_voltage := esc_voltage s |}.

Definition set_imu_linear_acceleration_xyz i v (s : State) : option State :=
  l ← set_at (imu_linear_acceleration_xyz s) i v;
  Some {| sim_time := sim_time s; status_code := status_code s;
          imu_angular_velocity_rpy := imu_angular_velocity_rpy s;
          imu_orientation_quat := imu_orientation_quat s;
          imu_linear_acceleration_xyz := l;
          esc_motor_angular_velocity := esc_motor_angular_velocity s;
          esc_temperature := esc_temperature s;
          esc_current := esc_current s; esc_voltage := esc_voltage s |}.

Definition set_esc_motor_angular_velocity i v (s : State) : option State :=
  l ← set_at (esc_motor_angular_velocity s) i v;
  Some {| sim_time := sim_time s; status_code := status_code s;
          imu_angular_velocity_rpy := imu_angular_velocity_rpy s;
          imu_orientation_quat := imu_orientation_quat s;
          imu_linear_acceleration_xyz := imu_linear_acceleration_xyz s;
          esc_motor_angular_velocity := l;
          esc_temperature := esc_temperature s;
          esc_current := esc_current s; esc_voltage := esc_voltage s |}.

Definition set_esc_temperature i v (s : State) : option State :=
  l ← set_at (esc_temperature s) i v;
  Some {| sim_time := sim_time s; status_code := status_code s;
          imu_angular_velocity_rpy := imu_angular_velocity_rpy s;
          imu_orientation_quat := imu_orientation_quat s;
          imu_linear_acceleration_xyz := imu_linear_acceleration_xyz s;
          esc_motor_angular_velocity := esc_motor_angular_velocity s;
          esc_temperature := l;
          esc_current := esc_current s; esc_voltage := esc_voltage s |}.

Definition set_esc_current i v (s : State) : option State :=
  l ← set_at (esc_current s) i v;
  Some {| sim_time := sim_time s; status_code := status_code s;
          imu_angular_velocity_rpy := imu_angular_velocity_rpy s;
          imu_orientation_quat := imu_orientation_quat s;
          imu_linear_acceleration_xyz := imu_linear_acceleration_xyz s;
          esc_motor_angular_velocity := esc_motor_angular_velocity s;
          esc_temperature := esc_temperature s;
          esc_current := l; esc_voltage := esc_voltage s |}.

Definition set_esc_voltage i v (s : State) : option State :=
  l ← set_at (esc_voltage s) i v;
  Some {| sim_time := sim_time s; status_code := status_code s;
          imu_angular_velocity_rpy := imu_angular_velocity_rpy s;
          imu_orientation_quat := imu_orientation_quat s;
          imu_linear_acceleration_xyz := imu_linear_acceleration_xyz s;
          esc_motor_angular_velocity := esc_motor_angular_velocity s;
          esc_temperature := esc_temperature s;
          esc_current := esc_current s; esc_voltage := l |}.

Definition set_sim_time (t : nat) (s : State) : State :=
  {| sim_time := t; status_code := status_code s;
     imu_angular_velocity_rpy := imu_angular_velocity_rpy s;
     imu_orientation_quat := imu_orientation_quat s;
     imu_linear_acceleration_xyz := imu_linear_acceleration_xyz s;
     esc_motor_angular_velocity := esc_motor_angular_velocity s;
     esc_temperature := esc_temperature s;
     esc_current := esc_current s; esc_voltage := esc_voltage s |}.

Definition set_status_code (c : StatusCode) (s : State) : State :=
  {| sim_time := sim_time s; status_code := c;
     imu_angular_velocity_rpy := imu_angular_velocity_rpy s;
     imu_orientation_quat := imu_orientation_quat s;
     imu_linear_acceleration_xyz := imu_linear_acceleration_xyz s;
     esc_motor_angular_velocity := esc_motor_angular_velocity s;
     esc_temperature := esc_temperature s;
     esc_current := esc_current s; esc_voltage := esc_voltage s |}.

(** ** Sensor state store *)

(** [InitState]: three sentinel angular velocities and accelerations, four
    quaternion entries, and one entry per actuator in each ESC array. *)
Definition InitState (p : Plugin) : Plugin :=
  let s := state p in
  let n := numActuators p in
  with_state p
    {| sim_time := sim_time s; status_code := status_code s;
       imu_angular_velocity_rpy :=
         imu_angular_velocity_rpy s ++ replicate 3 1%float;
       imu_orientation_quat := imu_orientation_quat s ++ replicate 4 0%float;
       imu_linear_acceleration_xyz :=
         imu_linear_acceleration_xyz s ++ replicate 3 0%float;
       esc_motor_angular_velocity :=
         esc_motor_angular_velocity s ++ replicate n 100%float;
       esc_temperature := esc_temperature s ++ replicate n 10000%float;
       esc_current := esc_current s ++ replicate n (-1)%float;
       esc_voltage := esc_voltage s ++ replicate n (-1)%float |}.

Section Callbacks.

(** The implicit conversion of a message value to the precision of the
    [State] field that receives it (the message declarations are generated
    headers). *)
Variable narrow : float → float.

(** [EscSensorCallback], run under [g_CallbackMutex]. *)
Definition EscSensorCallback (p : Plugin) (_escSensor : EscSensor) : option Plugin :=
  let id := id _escSensor in
  s1 ← set_esc_motor_angular_velocity id (narrow (motor_speed _escSensor)) (state p);
  s2 ← set_esc_temperature id (narrow (temperature _escSensor)) s1;
  s3 ← set_esc_current id (narrow (current _escSensor)) s2;
  s4 ← set_esc_voltage id (narrow (voltage _escSensor)) s3;
  Some (with_sensorCallbackCount (with_state p s4) (sensorCallbackCount p + 1)).

(** [ImuCallback], run under [g_CallbackMutex]. *)
Definition ImuCallback (p : Plugin) (_imu : Imu) : option Plugin :=
  let av := angular_velocity _imu in
  let q := orientation _imu in
  let la := linear_acceleration _imu in
  s1 ← set_imu_angular_velocity_rpy 0 (narrow (Vector3d.x av)) (state p);
  s2 ← set_imu_angular_velocity_rpy 1 (narrow (Vector3d.y av)) s1;
  s3 ← set_imu_angular_velocity_rpy 2 (narrow (Vector3d.z av)) s2;
  s4 ← set_imu_orientation_quat 0 (narrow (Quaternion.w q)) s3;
  s5 ← set_imu_orientation_quat 1 (narrow (Quaternion.x q)) s4;
  s6 ← set_imu_orientation_quat 2 (narrow (Quaternion.y q)) s5;
  s7 ← set_imu_orientation_quat 3 (narrow (Quaternion.z q)) s6;
  s8 ← set_imu_linear_acceleration_xyz 0 (narrow (Vector3d.x la)) s7;
  s9 ← set_imu_linear_acceleration_xyz 1 (narrow (Vector3d.y la)) s8;
  s10 ← set_imu_linear_acceleration_xyz 2 (narrow (Vector3d.z la)) s9;
  Some (with_sensorCallbackCount (with_state p s10) (sensorCallbackCount p + 1)).

End Callbacks.

(** ** Bootstrap *)

(** [SensorEnabled]. *)
Fixpoint SensorEnabled_in (l : list Sensors) (_sensor : Sensors) : bool :=
  match l with
  | [] => false
  | sensor :: l' => if decide (sensor = _sensor) then true else SensorEnabled_in l' _sensor
  end.

Definition SensorEnabled (p : Plugin) (_sensor : Sensors) : bool :=
  SensorEnabled_in (supportedSensors p) _sensor.

(** [CalculateCallbackCount]: one pass over [supportedSensors], adding to the
    member [numSensorCallbacks]. *)
Definition CalculateCallbackCount (p : Plugin) : Plugin :=
  with_numSensorCallbacks p
    (fold_left
       (λ count sensor,
          match sensor with
          | IMU => count + 1
          | ESC => count + Z.of_nat (numActuators p)
          end)
       (supportedSensors p) (numSensorCallbacks p)).

(** [ResetCallbackCount], run under [g_CallbackMutex]. *)
Definition ResetCallbackCount (p : Plugin) : Plugin :=
  with_sensorCallbackCount p (-1 * numSensorCallbacks p).

(** The environment variables the plugin reads; the macros that hold their
    names are declared in the header. *)
Inductive EnvVar :=
  | ENV_SITL_PORT
  | ENV_DIGITAL_TWIN_SDF
  | ENV_NUM_MOTORS
  | ENV_SUPPORTED_SENSORS.

(** What [gzerr] is given. *)
Inductive Diagnostic :=
  | failed_to_bind_aborting_plugin (port : Z)
  | could_not_load_digital_twin
  | num_motors_not_set
  | supported_sensors_not_set.

(** What [Load] asks of the simulator and of the thread library. *)
Inductive Boot :=
  | gzerr (d : Diagnostic)
  | Subscribe_imu
  | Subscribe_esc (i : nat)
  | Advertise_cmd
  | SetPaused
  | StartLoopThread.

(** [boost::split(results, env_p, c == ',')]: empty tokens are kept. *)
Fixpoint split (s : string) : list string :=
  match s with
  | EmptyString => [EmptyString]
  | String c s' =>
      if Ascii.eqb c "," then EmptyString :: split s'
      else match split s' with
           | tok :: toks => String c tok :: toks
           | [] => [String c EmptyString]
           end
  end.

Definition to_upper (c : ascii) : ascii :=
  let n := nat_of_ascii c in
  if (97 <=? n)%nat && (n <=? 122)%nat then ascii_of_nat (n - 32) else c.

(** [boost::iequals]. *)
Fixpoint iequals (a b : string) : bool :=
  match a, b with
  | EmptyString, EmptyString => true
  | String c a', String d b' => Ascii.eqb (to_upper c) (to_upper d) && iequals a' b'
  | _, _ => false
  end.

(** The subscription loop of [Load]: one topic for the IMU, one per actuator
    for the ESCs. *)
Definition subscribe_all (p : Plugin) : list Boot :=
  flat_map
    (λ sensor,
       match sensor with
       | IMU => [Subscribe_imu]
       | ESC => Subscribe_esc <$> seq 0 (numActuators p)
       end)
    (supportedSensors p).

Section Bootstrap.

Variable getenv : EnvVar → option string.
(** [std::stoi]; [None] when it throws. *)
Variable stoi : string → option Z.
(** Whether the [bind] system call succeeds on the port. *)
Variable bind : Z → bool.

(** [Bind]; the port parameter is a [uint16_t]. *)
Definition Bind (_address : string) (_port : Z) : bool := bind (_port mod 65536).

(** [LoadVars].  It returns nothing: every failure logs and leaves the
    function.  The result is [None] when [std::stoi] throws or yields a
    negative actuator count, which the model does not follow. *)
Definition LoadVars (p : Plugin) : option (Plugin * list Boot) :=
  port ← match getenv ENV_SITL_PORT with
         | Some env_p => stoi env_p
         | None => Some 9002
         end;
  if negb (Bind "127.0.0.1" port)
  then Some (p, [gzerr (failed_to_bind_aborting_plugin port)])
  else
    match getenv ENV_DIGITAL_TWIN_SDF with
    | None => Some (p, [gzerr could_not_load_digital_twin])
    | Some env_p =>
        let p := with_digitalTwinSDF p env_p in
        match getenv ENV_NUM_MOTORS with
        | None => Some (p, [gzerr num_motors_not_set])
        | Some env_p =>
            n ← stoi env_p;
            if decide (0 ≤ n) then
              let p := with_numActuators p (Z.to_nat n) in
              match getenv ENV_SUPPORTED_SENSORS with
              | None => Some (p, [gzerr supported_sensors_not_set])
              | Some env_p =>
                  let found :=
                    flat_map
                      (λ s, if iequals s "imu" then [IMU]
                            else if iequals s "esc" then [ESC]
                            else [])
                      (split env_p) in
                  Some (with_supportedSensors p (supportedSensors p ++ found), [])
              end
            else None
        end
    end.

(** [Load], after [ProcessSDF], which only sets topic names. *)
Definition Load (p : Plugin) : option (Plugin * list Boot) :=
  '(p, log) ← LoadVars p;
  let p := CalculateCallbackCount p in
  let subscriptions := subscribe_all p in
  let p := InitState p in
  Some (p, log ++ subscriptions ++ [Advertise_cmd; SetPaused; StartLoopThread]).

End Bootstrap.

(** ** The simulator, seen from the control-loop thread *)

(** A callback invocation made by the transport layer on a subscribed topic. *)
Inductive Callback :=
  | OnEsc (_escSensor : EscSensor)
  | OnImu (_imu : Imu).

(** The simulator as a scripted test double: a clock counting the ticks since
    the last [ResetTime], and, for every tick still to come, the callbacks
    that the sensor plugins' messages of that tick invoke.  The callbacks of
    a tick run before [Step] returns. *)
Record World := {
  SimTime : nat;
  feed : list (list Callback)
}.

Definition World_Step (w : World) : World * list Callback :=
  ({| SimTime := S (SimTime w); feed := tail (feed w) |}, hd [] (feed w)).

Definition ResetTime (w : World) : World := {| SimTime := 0; feed := feed w |}.

(** Poses and physics states are not part of the abstraction. *)
Definition ResetEntities (w : World) : World := w.
Definition ResetPhysicsStates (w : World) : World := w.

(** What the control-loop thread does, in program order; [Armed] records the
    value [ResetCallbackCount] has just stored in the counter. *)
Inductive Event :=
  | Armed (count : Z)
  | Publish (cmd : list float)
  | Step (steps : nat)
  | SoftReset_done
  | AwaitSensors
  | sendto (s : State) (to : Addr).

Definition is_sendto (e : Event) : bool :=
  match e with sendto _ _ => true | _ => false end.

Definition is_Publish (e : Event) : bool :=
  match e with Publish _ => true | _ => false end.

Definition is_Step (e : Event) : bool :=
  match e with Step _ => true | _ => false end.

(** The thread's view: the plugin object, the simulator, and the trace. *)
Record Sys := {
  plugin : Plugin;
  world : World;
  trace : list Event
}.

(** Why a run of the thread does not come back. *)
Inductive Halt :=
  | OutOfRange   (** an unchecked repeated-field access outside the size *)
  | Blocked      (** asleep on [callbackCondition] with nothing left to arrive *)
  | Unsettled.   (** the settle loop is still turning when the fuel is spent *)

Inductive Result (A : Type) :=
  | Done (a : A) (s : Sys)
  | Halted (h : Halt) (s : Sys).
Arguments Done {A} a s.
Arguments Halted {A} h s.

Definition Prog (A : Type) : Type := Sys → Result A.

Definition ret {A} (a : A) : Prog A := λ s, Done a s.

Definition bind {A B} (m : Prog A) (k : A → Prog B) : Prog B :=
  λ s, match m s with
       | Done a s' => k a s'
       | Halted h s' => Halted h s'
       end.

Notation "'do' x <- m ; k" := (bind m (λ x, k))
  (at level 10, x name, m at level 100, k at level 200).
Notation "m ;; k" := (bind m (λ _, k))
  (at level 100, k at level 200, right associativity).

Definition halt {A} (h : Halt) : Prog A := λ s, Halted h s.

Definition emit (e : Event) : Prog unit :=
  λ s, Done tt {| plugin := plugin s; world := world s; trace := trace s ++ [e] |}.

Definition this : Prog Plugin := λ s, Done (plugin s) s.

Definition the_world : Prog World := λ s, Done (world s) s.

Definition store (p : Plugin) : Prog unit :=
  λ s, Done tt {| plugin := p; world := world s; trace := trace s |}.

Definition store_world (w : World) : Prog unit :=
  λ s, Done tt {| plugin := plugin s; world := w; trace := trace s |}.

Definition checked {A} (o : option A) : Prog A :=
  match o with Some a => ret a | None => halt OutOfRange end.

(** The part of a result that is there whether or not the run came back. *)
Definition final {A} (r : Result A) : Sys :=
  match r with Done _ s => s | Halted _ s => s end.

Definition outcome {A} (r : Result A) : option Halt :=
  match r with Done _ _ => None | Halted h _ => Some h end.

Section LoopThread.

Variable narrow : float → float.

(** [Action::ParseFromString]: the message content it leaves behind, and
    its boolean result.  The decoder is generated code. *)
Variable ParseFromString : list byte → Action * bool.

Definition run_callback (p : Plugin) (cb : Callback) : option Plugin :=
  match cb with
  | OnEsc m => EscSensorCallback narrow p m
  | OnImu m => ImuCallback narrow p m
  end.

Fixpoint deliver (cbs : list Callback) : Prog unit :=
  match cbs with
  | [] => ret tt
  | cb :: cbs' =>
      do p <- this;
      do p' <- checked (run_callback p cb);
      store p';; deliver cbs'
  end.

(** [world->Step(1)]. *)
Definition world_Step_1 : Prog unit :=
  do w <- the_world;
  let '(w', cbs) := World_Step w in
  store_world w';; emit (Step 1);; deliver cbs.

(** [SoftReset]. *)
Definition SoftReset : Prog unit :=
  do w <- the_world;
  store_world (ResetPhysicsStates (ResetEntities (ResetTime w)));;
  emit SoftReset_done.

#[warnings="-inexact-float"] Definition error : float := 0.017%float.

(** The condition of the [if] in [FlushSensors], with the short-circuit
    order of the source; [None] when it reads index 2 of a field of size 2. *)
Definition keep_flushing (s : State) : option bool :=
  let rpy := imu_angular_velocity_rpy s in
  if (length rpy <? 2)%nat then Some true else
  r ← get_at rpy 0;
  if (error <? abs r)%float then Some true else
  p ← get_at rpy 1;
  if (error <? abs p)%float then Some true else
  y ← get_at rpy 2;
  Some (error <? abs y)%float.

(** The [while (1)] of [FlushSensors]; the fuel bounds its turns. *)
Fixpoint FlushSensors_loop (fuel : nat) : Prog unit :=
  match fuel with
  | O => halt Unsettled
  | S fuel' =>
      do p <- this;
      do again <- checked (keep_flushing (state p));
      if again : bool
      then world_Step_1;; SoftReset;; FlushSensors_loop fuel'
      else ret tt
  end.

(** [FlushSensors]. *)
Definition FlushSensors (fuel : nat) : Prog unit :=
  SoftReset;; FlushSensors_loop fuel.

(** [SendState]. *)
Definition SendState : Prog unit :=
  do p <- this; emit (sendto (state p) (remaddr p)).

(** [WaitForSensorsThenSend].  Every callback of the tick has run when the
    lock is taken, so a negative count means the thread sleeps for good. *)
Definition WaitForSensorsThenSend : Prog unit :=
  do w <- the_world;
  do p <- this;
  store (with_state p (set_status_code OK (set_sim_time (SimTime w) (state p))));;
  emit AwaitSensors;;
  do p <- this;
  if sensorCallbackCount p <? 0 then halt Blocked else SendState.

(** [ReceiveAction].  [recvfrom] yields nothing ([recvSize < 0]) or a
    datagram, cut to the 1024 bytes of the buffer, and its sender. *)
Definition ReceiveAction (datagram : option (list byte * Addr)) : Prog bool :=
  match datagram with
  | None => ret false
  | Some (buf, from) =>
      do p <- this;
      let msg := take 1024 buf in
      store (with_received p (fst (ParseFromString msg)) from);;
      ret true
  end.

(** The motor loop of [LoopThread]: [cmd.add_motor(action.motor(i))]. *)
Fixpoint add_motors (a : Action) (i n : nat) (cmd : list float) : option (list float) :=
  match n with
  | O => Some cmd
  | S n' => m ← get_at (motor a) i; add_motors a (S i) n' (add cmd m)
  end.

(** One turn of the [while (1)] of [LoopThread]. *)
Definition LoopThread_turn (fuel : nat) (datagram : option (list byte * Addr)) : Prog unit :=
  do ac_received <- ReceiveAction datagram;
  if negb ac_received then ret tt else
  do p <- this;
  if decide (world_control (action p) = RESET) then
    FlushSensors fuel;;
    do w <- the_world;
    do p <- this;
    store (with_state p (set_status_code OK (set_sim_time (SimTime w) (state p))));;
    SendState
  else
    store (ResetCallbackCount p);;
    emit (Armed (sensorCallbackCount (ResetCallbackCount p)));;
    do cmd <- checked (add_motors (action p) 0 (numActuators p) []);
    emit (Publish cmd);;
    world_Step_1;;
    WaitForSensorsThenSend.

(** [LoopThread] after [LoadDigitalTwin], over the successive results of
    [recvfrom]. *)
Fixpoint LoopThread (fuel : nat) (datagrams : list (option (list byte * Addr))) : Prog unit :=
  match datagrams with
  | [] => ret tt
  | d :: ds => LoopThread_turn fuel d;; LoopThread fuel ds
  end.

End LoopThread.

(** ** The completion barrier under interleaving

    One mutex guards the counter on every path, so the threads interleave
    whole critical sections: a callback from its lock to its [notify_all], the
    waiting thread from (re)acquiring the lock to the test of
    [sensorCallbackCount < 0]. *)
Module Barrier.

(** Where the thread inside [WaitForSensorsThenSend] is. *)
Inductive Waiter :=
  | Entering   (** about to take the lock and test the condition *)
  | Sleeping   (** inside [callbackCondition.wait(lock)] *)
  | Woken      (** notified, about to take the lock and test again *)
  | Returned.  (** past the [while], on its way to [SendState] *)

Global Instance Waiter_eq_dec : EqDecision Waiter.
Proof. solve_decision. Defined.

Record Shared := {
  obj : Plugin;
  waiter : Waiter;
  passes : nat   (** how often the waiter has left the [while] *)
}.

(** What the scheduler lets happen next.  A waiter that is asleep or has
    returned does nothing when it is its turn. *)
Inductive Move :=
  | Arrival (cb : Callback)   (** a callback thread runs its critical section *)
  | Waiter_runs               (** the waiter takes the lock and tests the count *)
  | Spurious_wakeup.          (** the wait ends without a notification *)

Definition notify_all (w : Waiter) : Waiter :=
  match w with Sleeping => Woken | _ => w end.

(** The test of the [while] in [WaitForSensorsThenSend]. *)
Definition must_wait (p : Plugin) : bool := sensorCallbackCount p <? 0.

Section Steps.

Variable narrow : float → float.

Definition step (s : Shared) (m : Move) : option Shared :=
  match m with
  | Arrival cb =>
      p ← run_callback narrow (obj s) cb;
      Some {| obj := p; waiter := notify_all (waiter s); passes := passes s |}
  | Waiter_runs =>
      match waiter s with
      | Entering | Woken =>
          if must_wait (obj s)
          then Some {| obj := obj s; waiter := Sleeping; passes := passes s |}
          else Some {| obj := obj s; waiter := Returned; passes := S (passes s) |}
      | Sleeping | Returned => Some s
      end
  | Spurious_wakeup =>
      Some {| obj := obj s; waiter := notify_all (waiter s); passes := passes s |}
  end.

Fixpoint run (s : Shared) (ms : list Move) : option Shared :=
  match ms with
  | [] => Some s
  | m :: ms' => s' ← step s m; run s' ms'
  end.

End Steps.

Definition is_Arrival (m : Move) : bool :=
  match m with Arrival _ => true | _ => false end.

Definition arrivals (ms : list Move) : nat := length (filter is_Arrival ms).

(** The state right after [ResetCallbackCount], the waiter not yet in. *)
Definition armed (p : Plugin) : Shared :=
  {| obj := ResetCallbackCount p; waiter := Entering; passes := 0 |}.

(** What holds of the shared state after [n] arrivals since the arming with
    expected count [k]. *)
Definition inv (k n : nat) (s : Shared) : Prop :=
  sensorCallbackCount (obj s) = - Z.of_nat k + Z.of_nat n ∧
  (waiter s = Sleeping → sensorCallbackCount (obj s) < 0) ∧
  (waiter s = Returned → (k ≤ n)%nat) ∧
  passes s = (if decide (waiter s = Returned) then 1 else 0)%nat.

End Barrier.

(** ** Link lookup *)

(** [hasEnding]: [fullString.compare(pos, len, ending)] is zero exactly when
    the [len] characters from [pos] are [ending]. *)
Definition hasEnding (fullString ending : string) : bool :=
  if (String.length ending <=? String.length fullString)%nat
  then String.eqb
         (substring (String.length fullString - String.length ending)
            (String.length ending) fullString)
         ending
  else false.

Section Links.

(** A link of the simulator's model graph, known here by its name only. *)
Variable Link : Type.
Variable GetName : Link → string.

(** [FindLinkByName] over [_model->GetLinks()]; [None] is the [NULL] result. *)
Fixpoint FindLinkByName (links : list Link) (_linkName : string) : option Link :=
  match links with
  | [] => None
  | link :: links' =>
      if hasEnding (GetName link) _linkName then Some link
      else FindLinkByName links' _linkName
  end.

End Links.

(** ** Vocabulary of the properties *)

(** [l'] is [l] with entry [i] overwritten by [v] and nothing else touched. *)
Definition written_at (l l' : list float) (i : nat) (v : float) : Prop :=
  l' !! i = Some v ∧ length l' = length l ∧ ∀ j, j ≠ i → l' !! j = l !! j.

(** Every ESC array holds one entry per actuator. *)
Definition esc_sized (p : Plugin) : Prop :=
  length (esc_motor_angular_velocity (state p)) = numActuators p ∧
  length (esc_temperature (state p)) = numActuators p ∧
  length (esc_current (state p)) = numActuators p ∧
  length (esc_voltage (state p)) = numActuators p.

(** The IMU arrays have the sizes [InitState] gives them. *)
Definition imu_sized (p : Plugin) : Prop :=
  length (imu_angular_velocity_rpy (state p)) = 3%nat ∧
  length (imu_orientation_quat (state p)) = 4%nat ∧
  length (imu_linear_acceleration_xyz (state p)) = 3%nat.

(** The store after the callbacks of the next [k] ticks of a feed. *)
Fixpoint run_callbacks narrow (p : Plugin) (cbs : list Callback) : option Plugin :=
  match cbs with
  | [] => Some p
  | cb :: cbs' => p' ← run_callback narrow p cb; run_callbacks narrow p' cbs'
  end.

Fixpoint store_after narrow (k : nat) (p : Plugin) (fd : list (list Callback)) : option Plugin :=
  match k with
  | O => Some p
  | S k' => p' ← run_callbacks narrow p (hd [] fd); store_after narrow k' p' (tail fd)
  end.

(** The events of [M] turns of the settle loop. *)
Definition settle_turns (M : nat) : list Event :=
  concat (replicate M [Step 1; SoftReset_done]).

(** The members that only bootstrap and [ReceiveAction] write. *)
Definition same_session (p p' : Plugin) : Prop :=
  numActuators p' = numActuators p ∧
  supportedSensors p' = supportedSensors p ∧
  numSensorCallbacks p' = numSensorCallbacks p ∧
  action p' = action p ∧
  remaddr p' = remaddr p.

(** The events a run has added to the trace it started from. *)
Definition added {A} (s : Sys) (r : Result A) : list Event :=
  drop (length (trace s)) (trace (final r)).

(** What the settle loop emits. *)
Definition settle_event (e : Event) : Prop := e = Step 1 ∨ e = SoftReset_done.

(** The magnitude of [v] is above the tolerance of the settle loop. *)
Definition above_tolerance (v : float) : Prop := (error <? abs v)%float = true.

(** A reading that is not settled: fewer than two entries, or one of the
    three axes above the tolerance. *)
Definition not_settled (rpy : list float) : Prop :=
  (length rpy < 2)%nat ∨
  ∃ r p y rest, rpy = r :: p :: y :: rest ∧
    (above_tolerance r ∨ above_tolerance p ∨ above_tolerance y).

(** A settled reading: three axes, none above the tolerance. *)
Definition settled (rpy : list float) : Prop :=
  ∃ r p y rest, rpy = r :: p :: y :: rest ∧
    ¬ above_tolerance r ∧ ¬ above_tolerance p ∧ ¬ above_tolerance y.

(** The angular velocity the store holds after [k] ticks of the feed. *)
Definition reading narrow (k : nat) (p : Plugin) (fd : list (list Callback)) : option (list float) :=
  p' ← store_after narrow k p fd; Some (imu_angular_velocity_rpy (state p')).


(** The tokens put back together with commas between them. *)
Fixpoint join (tokens : list string) : string :=
  match tokens with
  | [] => EmptyString
  | [tok] => tok
  | tok :: toks => (tok ++ String "," (join toks))%string
  end.

Fixpoint has_comma (s : string) : bool :=
  match s with
  | EmptyString => false
  | String c s' => Ascii.eqb c "," || has_comma s'
  end.

Fixpoint commas (s : string) : nat :=
  match s with
  | EmptyString => O
  | String c s' => ((if Ascii.eqb c "," then 1 else 0) + commas s')%nat
  end.

(** The string with every character in upper case. *)
Fixpoint upper (s : string) : string :=
  match s with
  | EmptyString => EmptyString
  | String c s' => String (to_upper c) (upper s')
  end.

(** The sensor a token of the list names, if any, whatever its case. *)
Definition sensor_of_token (tok : string) : option Sensors :=
  if String.eqb (upper tok) "IMU" then Some IMU
  else if String.eqb (upper tok) "ESC" then Some ESC
  else None.

(** The channel a callback writes: the IMU ([None]) or one ESC. *)
Definition channel (cb : Callback) : option nat :=
  match cb with
  | OnImu _ => None
  | OnEsc m => Some (id m)
  end.

(** A callback whose index, if it has one, is below the actuator count. *)
Definition in_range (p : Plugin) (cb : Callback) : Prop :=
  match cb with
  | OnImu _ => True
  | OnEsc m => (id m < numActuators p)%nat
  end.

(** The store a message fills on its own: what an IMU message leaves in the
    three IMU arrays. *)
Definition imu_arrays narrow (m : Imu) : list float * list float * list float :=
  ([narrow (Vector3d.x (angular_velocity m)); narrow (Vector3d.y (angular_velocity m));
    narrow (Vector3d.z (angular_velocity m))],
   [narrow (Quaternion.w (orientation m)); narrow (Quaternion.x (orientation m));
    narrow (Quaternion.y (orientation m)); narrow (Quaternion.z (orientation m))],
   [narrow (Vector3d.x (linear_acceleration m)); narrow (Vector3d.y (linear_acceleration m));
    narrow (Vector3d.z (linear_acceleration m))]).

(** The state message as [WaitForSensorsThenSend] and the [RESET] branch
    stamp it before sending. *)
Definition stamped (t : nat) (st : State) : State :=
  set_status_code OK (set_sim_time t st).

Definition is_OnEsc (cb : Callback) : bool :=
  match cb with OnEsc _ => true | OnImu _ => false end.

(** A state message whose arrays have the sizes of a rig with [n] actuators. *)
Definition state_sized (n : nat) (st : State) : Prop :=
  length (imu_angular_velocity_rpy st) = 3%nat ∧
  length (imu_orientation_quat st) = 4%nat ∧
  length (imu_linear_acceleration_xyz st) = 3%nat ∧
  length (esc_motor_angular_velocity st) = n ∧
  length (esc_temperature st) = n ∧
  length (esc_current st) = n ∧
  length (esc_voltage st) = n.

(** An event that, if it sends a state, sends one of the right sizes. *)
Definition sends_sized (n : nat) (e : Event) : Prop :=
  ∀ st to, e = sendto st to → state_sized n st.

(** Where an event sends a state to, if it sends one. *)
Definition destination (e : Event) : option Addr :=
  match e with sendto _ to => Some to | _ => None end.

(** The senders of the datagrams among the results of the polls, in order. *)
Definition senders (datagrams : list (option (list byte * Addr))) : list Addr :=
  snd <$> omap (λ d, d) datagrams.

(** ** A two-actuator rig, for worked instances *)
Module Rig.

(** Message values that already have the precision of the state fields. *)
Definition exact (v : float) : float := v.

Definition constructed : Plugin :=
  {| numActuators := 0; supportedSensors := []; numSensorCallbacks := 0;
     sensorCallbackCount := 0; digitalTwinSDF := ""; state := State_new;
     action := Action_new; remaddr := 0 |}.

(** Two actuators, IMU and ESC enabled, as [Load] leaves the plugin. *)
Definition loaded : Plugin :=
  InitState
    (CalculateCallbackCount
       (with_supportedSensors (with_numActuators constructed 2) [IMU; ESC])).

Definition imu_msg (roll : float) : Imu :=
  {| angular_velocity := {| Vector3d.x := roll; Vector3d.y := 0; Vector3d.z := 0 |};
     orientation := {| Quaternion.w := 1; Quaternion.x := 0;
                       Quaternion.y := 0; Quaternion.z := 0 |};
     linear_acceleration := {| Vector3d.x := 0; Vector3d.y := 0; Vector3d.z := 0 |} |}.

Definition esc_msg (i : nat) : EscSensor :=
  {| id := i; motor_speed := 5; temperature := 30; current := 1; voltage := 12 |}.

Definition tick_with (roll : float) : list Callback :=
  [OnImu (imu_msg roll); OnEsc (esc_msg 0); OnEsc (esc_msg 1)].

(** The roll rate is 0.5 after the first tick and 1/128 after the second. *)
Definition sim : World :=
  {| SimTime := 7; feed := [tick_with 0.5; tick_with 0.0078125; tick_with 0] |}.

(** A stand-in decoder: three buffers are messages, every other buffer is
    rejected with the message left cleared. *)
Definition decoder (b : list byte) : Action * bool :=
  match b with
  | [] => (Action_new, true)
  | [x00] => ({| motor := [0.5; 0.25]%float; world_control := STEP |}, true)
  | [x01] => ({| motor := []; world_control := RESET |}, true)
  | _ => (Action_new, false)
  end.

Definition agent : Addr := 5.

Definition sys : Sys := {| plugin := loaded; world := sim; trace := [] |}.

(** No variable set, and the port taken. *)
Definition no_env (v : EnvVar) : option string := None.
Definition no_stoi (s : string) : option Z := None.
Definition port_taken (port : Z) : bool := false.

End Rig.

(** ** A full configuration, for worked instances *)
Module Config.

(** Port variable unset, model path and actuator count set, and a sensor
    list with mixed case, an empty token and a repeated sensor. *)
Definition env (v : EnvVar) : option string :=
  match v with
  | ENV_SITL_PORT => None
  | ENV_DIGITAL_TWIN_SDF => Some "twin.sdf"%string
  | ENV_NUM_MOTORS => Some "2"%string
  | ENV_SUPPORTED_SENSORS => Some "IMU,,Esc,imu"%string
  end.

Definition tokens : list string := ["IMU"; ""; "Esc"; "imu"]%string.

(** A stand-in for [std::stoi] that knows the one number of [env]. *)
Definition stoi (s : string) : option Z :=
  if String.eqb s "2" then Some 2 else None.

Definition port_free (port : Z) : bool := true.

(** A feed whose ticks run ESC callbacks only. *)
Definition esc_only : World :=
  {| SimTime := 0;
     feed := [[OnEsc (Rig.esc_msg 0); OnEsc (Rig.esc_msg 1)];
              [OnEsc (Rig.esc_msg 1)]] |}.

End Config.

(** * Properties *)

(** ** The sensor state store *)

Lemma set_at_Some l i v :
  (i < length l)%nat → set_at l i v = Some (<[i := v]> l).
Proof. intros Hi. unfold set_at. by rewrite decide_True. Qed.

Lemma set_at_None l i v :
  (length l ≤ i)%nat → set_at l i v = None.
Proof. intros Hi. unfold set_at. rewrite decide_False; [done | lia]. Qed.

Lemma set_at_inv l i v l' :
  set_at l i v = Some l' → (i < length l)%nat ∧ l' = <[i := v]> l.
Proof. unfold set_at. case_decide; naive_solver. Qed.

Lemma insert_written_at (l : list float) i v :
  (i < length l)%nat → written_at l (<[i := v]> l) i v.
Proof.
  intros Hi. repeat split.
  - by apply list_lookup_insert_eq.
  - apply length_insert.
  - intros j Hj. by apply list_lookup_insert_ne.
Qed.

Lemma InitState_esc_sized p :
  state p = State_new → esc_sized (InitState p).
Proof.
  intros Hnew. unfold esc_sized, InitState. rewrite Hnew. simpl.
  by rewrite !length_replicate.
Qed.

Lemma InitState_imu_sized p :
  state p = State_new → imu_sized (InitState p).
Proof. intros Hnew. unfold imu_sized, InitState. by rewrite Hnew. Qed.

Section StoreFacts.

Variable narrow : float → float.

Lemma EscSensorCallback_inv p m p' :
  EscSensorCallback narrow p m = Some p' →
  (id m < length (esc_motor_angular_velocity (state p)))%nat ∧
  (id m < length (esc_temperature (state p)))%nat ∧
  (id m < length (esc_current (state p)))%nat ∧
  (id m < length (esc_voltage (state p)))%nat ∧
  p' = with_sensorCallbackCount
         (with_state p
            {| sim_time := sim_time (state p);
               status_code := status_code (state p);
               imu_angular_velocity_rpy := imu_angular_velocity_rpy (state p);
               imu_orientation_quat := imu_orientation_quat (state p);
               imu_linear_acceleration_xyz := imu_linear_acceleration_xyz (state p);
               esc_motor_angular_velocity :=
                 <[id m := narrow (motor_speed m)]> (esc_motor_angular_velocity (state p));
               esc_temperature :=
                 <[id m := narrow (temperature m)]> (esc_temperature (state p));
               esc_current := <[id m := narrow (current m)]> (esc_current (state p));
               esc_voltage := <[id m := narrow (voltage m)]> (esc_voltage (state p)) |})
         (sensorCallbackCount p + 1).
Proof.
  unfold EscSensorCallback, set_esc_motor_angular_velocity,
    set_esc_temperature, set_esc_current, set_esc_voltage.
  intros H.
  destruct (set_at (esc_motor_angular_velocity _) _ _) as [l1|] eqn:E1;
    [|done]; simpl in H.
  destruct (set_at (esc_temperature _) _ _) as [l2|] eqn:E2; [|done]; simpl in H.
  destruct (set_at (esc_current _) _ _) as [l3|] eqn:E3; [|done]; simpl in H.
  destruct (set_at (esc_voltage _) _ _) as [l4|] eqn:E4; [|done]; simpl in H.
  apply set_at_inv in E1 as [? ->], E2 as [? ->], E3 as [? ->], E4 as [? ->].
  by simplify_eq.
Qed.

Lemma EscSensorCallback_in_range p m :
  (id m < length (esc_motor_angular_velocity (state p)))%nat →
  (id m < length (esc_temperature (state p)))%nat →
  (id m < length (esc_current (state p)))%nat →
  (id m < length (esc_voltage (state p)))%nat →
  is_Some (EscSensorCallback narrow p m).
Proof.
  intros H1 H2 H3 H4.
  unfold EscSensorCallback, set_esc_motor_angular_velocity,
    set_esc_temperature, set_esc_current, set_esc_voltage.
  rewrite (set_at_Some _ _ _ H1). simpl.
  rewrite (set_at_Some _ _ _ H2). simpl.
  rewrite (set_at_Some _ _ _ H3). simpl.
  rewrite (set_at_Some _ _ _ H4). simpl. eauto.
Qed.

Lemma EscSensorCallback_out_of_range p m :
  (length (esc_motor_angular_velocity (state p)) ≤ id m)%nat →
  EscSensorCallback narrow p m = None.
Proof.
  intros H. unfold EscSensorCallback, set_esc_motor_angular_velocity.
  by rewrite (set_at_None _ _ _ H).
Qed.

Lemma ImuCallback_inv p m p' :
  ImuCallback narrow p m = Some p' →
  sensorCallbackCount p' = sensorCallbackCount p + 1 ∧
  numSensorCallbacks p' = numSensorCallbacks p ∧
  numActuators p' = numActuators p ∧
  supportedSensors p' = supportedSensors p ∧
  action p' = action p ∧ remaddr p' = remaddr p ∧
  sim_time (state p') = sim_time (state p) ∧
  status_code (state p') = status_code (state p) ∧
  length (imu_angular_velocity_rpy (state p')) =
    length (imu_angular_velocity_rpy (state p)).
Proof.
  unfold ImuCallback, set_imu_angular_velocity_rpy, set_imu_orientation_quat,
    set_imu_linear_acceleration_xyz.
  intros H.
  repeat match type of H with
    | context [set_at ?l ?i ?v] =>
        let E := fresh "E" in
        destruct (set_at l i v) eqn:E; [simpl in H | done];
        apply set_at_inv in E as [? ->]
    end.
  simplify_eq. simpl. by rewrite !length_insert.
Qed.

Lemma ImuCallback_in_range p m :
  imu_sized p → is_Some (ImuCallback narrow p m).
Proof.
  intros (H1 & H2 & H3).
  unfold ImuCallback, set_imu_angular_velocity_rpy, set_imu_orientation_quat,
    set_imu_linear_acceleration_xyz.
  repeat (rewrite set_at_Some by (rewrite ?length_insert; simpl; lia); simpl).
  eauto.
Qed.

End StoreFacts.

(** C10.  [EscSensorCallback] overwrites entry [id] of the four ESC arrays
    with the message's values and touches nothing else in the store: the other
    entries, the array sizes, the IMU fields, the time and the status stay as
    they were, and the callback count goes up by one.  The index is not
    checked: [InitState] sizes the arrays to the actuator count, the write is
    defined when [id] is below that count, and it has no defined result when
    [id] reaches it. *)
Theorem EscSensorCallback_writes_only_at_id narrow (p : Plugin) (m : EscSensor) :
  esc_sized p →
  ((id m < numActuators p)%nat →
     ∃ p', EscSensorCallback narrow p m = Some p' ∧
       written_at (esc_motor_angular_velocity (state p))
         (esc_motor_angular_velocity (state p')) (id m) (narrow (motor_speed m)) ∧
       written_at (esc_temperature (state p))
         (esc_temperature (state p')) (id m) (narrow (temperature m)) ∧
       written_at (esc_current (state p))
         (esc_current (state p')) (id m) (narrow (current m)) ∧
       written_at (esc_voltage (state p))
         (esc_voltage (state p')) (id m) (narrow (voltage m)) ∧
       imu_angular_velocity_rpy (state p') = imu_angular_velocity_rpy (state p) ∧
       imu_orientation_quat (state p') = imu_orientation_quat (state p) ∧
       imu_linear_acceleration_xyz (state p') = imu_linear_acceleration_xyz (state p) ∧
       sim_time (state p') = sim_time (state p) ∧
       status_code (state p') = status_code (state p) ∧
       sensorCallbackCount p' = sensorCallbackCount p + 1 ∧
       esc_sized p') ∧
  ((numActuators p ≤ id m)%nat → EscSensorCallback narrow p m = None) ∧
  esc_sized (InitState (with_state p State_new)).
Proof.
  intros (S1 & S2 & S3 & S4). split; [|split].
  - intros Hid.
    destruct (EscSensorCallback_in_range narrow p m) as [p' Hp']; [lia..|].
    exists p'. split; [done|].
    apply EscSensorCallback_inv in Hp' as (H1 & H2 & H3 & H4 & ->). simpl.
    repeat match goal with
      | |- written_at _ _ _ _ => by apply insert_written_at
      | |- _ ∧ _ => split
      | |- esc_sized _ => unfold esc_sized; simpl; rewrite !length_insert
      end; done.
  - intros Hid. apply EscSensorCallback_out_of_range. lia.
  - by apply InitState_esc_sized.
Qed.

(** ** The control-loop thread *)

Global Instance same_session_refl : Reflexive same_session.
Proof. by intros p. Qed.

Global Instance same_session_trans : Transitive same_session.
Proof. intros p q r (?&?&?&?&?) (?&?&?&?&?). repeat split; congruence. Qed.

Section LoopFacts.

Variable narrow : float → float.
Variable ParseFromString : list byte → Action * bool.

Lemma run_callback_count p cb p' :
  run_callback narrow p cb = Some p' →
  sensorCallbackCount p' = sensorCallbackCount p + 1.
Proof.
  destruct cb as [m|m]; simpl; intros H.
  - by apply EscSensorCallback_inv in H as (_ & _ & _ & _ & ->).
  - by apply ImuCallback_inv in H as (? & _).
Qed.

Lemma run_callback_session p cb p' :
  run_callback narrow p cb = Some p' → same_session p p'.
Proof.
  destruct cb as [m|m]; simpl; intros H.
  - by apply EscSensorCallback_inv in H as (_ & _ & _ & _ & ->).
  - apply ImuCallback_inv in H. by destruct_and!.
Qed.

Lemma run_callbacks_session cbs : ∀ p p',
  run_callbacks narrow p cbs = Some p' → same_session p p'.
Proof.
  induction cbs as [|cb cbs IH]; simpl; intros p p' H.
  - by simplify_eq.
  - destruct (run_callback narrow p cb) as [q|] eqn:E; [|done].
    simpl in H. etrans; [by eapply run_callback_session | by apply IH].
Qed.

Lemma run_callbacks_count cbs : ∀ p p',
  run_callbacks narrow p cbs = Some p' →
  sensorCallbackCount p' = sensorCallbackCount p + Z.of_nat (length cbs).
Proof.
  induction cbs as [|cb cbs IH]; simpl; intros p p' H.
  - simplify_eq. lia.
  - destruct (run_callback narrow p cb) as [q|] eqn:E; [|done].
    simpl in H. apply IH in H. apply run_callback_count in E. lia.
Qed.

(** [deliver] is [run_callbacks] on the plugin; it leaves the simulator
    and the trace alone, also when a callback runs out of range. *)
Lemma deliver_spec cbs : ∀ s,
  match run_callbacks narrow (plugin s) cbs with
  | Some p' =>
      deliver narrow cbs s =
      Done tt {| plugin := p'; world := world s; trace := trace s |}
  | None =>
      ∃ q, deliver narrow cbs s =
           Halted OutOfRange {| plugin := q; world := world s; trace := trace s |} ∧
           same_session (plugin s) q
  end.
Proof.
  induction cbs as [|cb cbs IH]; intros [p w t]; simpl.
  - done.
  - unfold bind, this, checked. simpl.
    destruct (run_callback narrow p cb) as [q|] eqn:Hcb; simpl.
    + specialize (IH {| plugin := q; world := w; trace := t |}). simpl in IH.
      destruct (run_callbacks narrow q cbs); [done|].
      destruct IH as (q' & ? & ?). exists q'. split; [done|].
      etrans; [by eapply run_callback_session | done].
    + by exists p.
Qed.

Lemma SoftReset_spec s :
  SoftReset s =
  Done tt {| plugin := plugin s; world := ResetTime (world s);
             trace := trace s ++ [SoftReset_done] |}.
Proof. done. Qed.

Lemma world_Step_1_spec s :
  world_Step_1 narrow s =
  deliver narrow (hd [] (feed (world s)))
    {| plugin := plugin s;
       world := {| SimTime := S (SimTime (world s)); feed := tail (feed (world s)) |};
       trace := trace s ++ [Step 1] |}.
Proof. done. Qed.

Lemma add_motors_spec a n : ∀ i cmd,
  (i + n ≤ length (motor a))%nat →
  add_motors a i n cmd = Some (cmd ++ take n (drop i (motor a))).
Proof.
  induction n as [|n IH]; intros i cmd Hlen; simpl.
  - by rewrite take_0, app_nil_r.
  - unfold get_at.
    destruct (lookup_lt_is_Some_2 (motor a) i) as [m Hm]; [lia|].
    rewrite Hm. simpl. rewrite IH by lia. unfold add.
    rewrite <- app_assoc. do 2 f_equal. simpl.
    by rewrite (drop_S _ _ _ Hm).
Qed.

Lemma add_motors_short a n : ∀ i cmd,
  (i ≤ length (motor a) < i + n)%nat → add_motors a i n cmd = None.
Proof.
  induction n as [|n IH]; intros i cmd Hlen; simpl.
  - lia.
  - unfold get_at. destruct (motor a !! i) as [m|] eqn:Hm; simpl; [|done].
    apply lookup_lt_Some in Hm. apply IH. lia.
Qed.

End LoopFacts.

Section Turns.

Variable narrow : float → float.
Variable ParseFromString : list byte → Action * bool.
Variables (fuel : nat) (buf : list byte) (from : Addr) (s : Sys).

Let a : Action := fst (ParseFromString (take 1024 buf)).
Let received : Plugin := with_received (plugin s) a from.

Lemma ReceiveAction_Some :
  ReceiveAction ParseFromString (Some (buf, from)) s =
  Done true {| plugin := received; world := world s; trace := trace s |}.
Proof. done. Qed.

(** The [STEP] branch of a turn, statement by statement. *)
Lemma STEP_turn_unfold :
  world_control a = STEP →
  LoopThread_turn narrow ParseFromString fuel (Some (buf, from)) s =
  match add_motors a 0 (numActuators (plugin s)) [] with
  | None =>
      Halted OutOfRange
        {| plugin := ResetCallbackCount received; world := world s;
           trace := trace s ++ [Armed (-1 * numSensorCallbacks (plugin s))] |}
  | Some cmd =>
      match world_Step_1 narrow
              {| plugin := ResetCallbackCount received; world := world s;
                 trace := trace s ++ [Armed (-1 * numSensorCallbacks (plugin s));
                                      Publish cmd] |} with
      | Done _ s' => WaitForSensorsThenSend s'
      | Halted h s' => Halted h s'
      end
  end.
Proof.
  intros Hstep. unfold LoopThread_turn, ReceiveAction, bind, this, store, ret.
  simpl. fold a. rewrite decide_False by (rewrite Hstep; done).
  unfold emit, checked. simpl.
  destruct (add_motors a 0 (numActuators (plugin s)) []) as [cmd|]; simpl; [|done].
  by rewrite <- app_assoc.
Qed.

(** The [RESET] branch of a turn. *)
Lemma RESET_turn_unfold :
  world_control a = RESET →
  LoopThread_turn narrow ParseFromString fuel (Some (buf, from)) s =
  match FlushSensors narrow fuel
          {| plugin := received; world := world s; trace := trace s |} with
  | Done _ s' =>
      Done tt
        {| plugin := with_state (plugin s')
                       (set_status_code OK
                          (set_sim_time (SimTime (world s')) (state (plugin s'))));
           world := world s';
           trace := trace s' ++
             [sendto (set_status_code OK
                        (set_sim_time (SimTime (world s')) (state (plugin s'))))
                     (remaddr (plugin s'))] |}
  | Halted h s' => Halted h s'
  end.
Proof.
  intros Hreset. unfold LoopThread_turn, ReceiveAction, bind, this, store, ret.
  simpl. fold a. rewrite decide_True by done.
  by destruct (FlushSensors narrow fuel _).
Qed.

(** [WaitForSensorsThenSend]: stamp, then sleep or send. *)
Lemma WaitForSensorsThenSend_spec (s0 : Sys) :
  let st := set_status_code OK (set_sim_time (SimTime (world s0)) (state (plugin s0))) in
  WaitForSensorsThenSend s0 =
  if sensorCallbackCount (plugin s0) <? 0
  then Halted Blocked
         {| plugin := with_state (plugin s0) st; world := world s0;
            trace := trace s0 ++ [AwaitSensors] |}
  else Done tt
         {| plugin := with_state (plugin s0) st; world := world s0;
            trace := trace s0 ++ [AwaitSensors; sendto st (remaddr (plugin s0))] |}.
Proof.
  unfold WaitForSensorsThenSend, SendState, bind, the_world, this, store, emit.
  simpl. destruct (sensorCallbackCount (plugin s0) <? 0); [done|].
  simpl. by rewrite <- app_assoc.
Qed.

(** What a [STEP] turn adds to the trace, by outcome. *)
Lemma STEP_turn_shape :
  let r := LoopThread_turn narrow ParseFromString fuel (Some (buf, from)) s in
  world_control a = STEP →
  match add_motors a 0 (numActuators (plugin s)) [] with
  | None =>
      trace (final r) = trace s ++ [Armed (- numSensorCallbacks (plugin s))] ∧
      outcome r = Some OutOfRange
  | Some cmd =>
      ∃ rest,
        trace (final r) =
          trace s ++ [Armed (- numSensorCallbacks (plugin s)); Publish cmd; Step 1]
                  ++ rest ∧
        (rest = [] ∧ outcome r = Some OutOfRange ∨
         rest = [AwaitSensors] ∧ outcome r = Some Blocked ∨
         ∃ st, rest = [AwaitSensors; sendto st from] ∧ outcome r = None) ∧
        SimTime (world (final r)) = S (SimTime (world s))
  end.
Proof.
  intros r Hstep. subst r. rewrite STEP_turn_unfold by done.
  replace (-1 * numSensorCallbacks (plugin s))
    with (- numSensorCallbacks (plugin s)) by lia.
  destruct (add_motors a 0 (numActuators (plugin s)) []) as [cmd|]; [|done].
  rewrite world_Step_1_spec. simpl.
  match goal with |- context [deliver narrow ?cbs ?s0] =>
    pose proof (deliver_spec narrow cbs s0) as Hd end.
  simpl in Hd.
  destruct (run_callbacks narrow _ _) as [q|] eqn:Hq.
  - rewrite Hd, WaitForSensorsThenSend_spec. simpl.
    apply run_callbacks_session in Hq as (_ & _ & _ & _ & Hq). simpl in Hq.
    destruct (sensorCallbackCount q <? 0); simpl.
    + exists [AwaitSensors]. rewrite <- !app_assoc. simpl.
      split; [done|]. split; [|done]. by right; left.
    + eexists [AwaitSensors; sendto _ from]. rewrite <- !app_assoc. simpl.
      rewrite Hq. split; [done|]. split; [|done]. right; right. by eexists.
  - destruct Hd as (q' & -> & _). simpl. exists []. rewrite <- !app_assoc. simpl.
    split; [done|]. split; [|done]. by left.
Qed.

End Turns.

Lemma added_app {A} (s : Sys) (r : Result A) evs :
  trace (final r) = trace s ++ evs → added s r = evs.
Proof. intros H. unfold added. by rewrite H, drop_app_length. Qed.

(** C1.  A turn of the loop that receives an [Action] with command [STEP]
    never ticks the simulator more than once.  When the action carries a
    motor value for every actuator, the turn arms the barrier, publishes the
    motor command, and then calls [Step(1)] exactly once, which advances the
    simulation clock by one; only after that does it wait for the sensors
    and, if they all reported, send the state.  This holds whether the turn
    comes back, sleeps on the barrier, or stops in a callback. *)
Theorem STEP_turn_advances_exactly_one_tick
    narrow ParseFromString (fuel : nat) (buf : list byte) (from : Addr) (s : Sys) :
  let a := fst (ParseFromString (take 1024 buf)) in
  let r := LoopThread_turn narrow ParseFromString fuel (Some (buf, from)) s in
  world_control a = STEP →
  (length (filter is_Step (added s r)) ≤ 1)%nat ∧
  ((numActuators (plugin s) ≤ length (motor a))%nat →
   (∃ rest,
      added s r =
        [Armed (- numSensorCallbacks (plugin s));
         Publish (take (numActuators (plugin s)) (motor a));
         Step 1] ++ rest ∧
      (rest = [] ∧ outcome r = Some OutOfRange ∨
       rest = [AwaitSensors] ∧ outcome r = Some Blocked ∨
       ∃ st, rest = [AwaitSensors; sendto st from] ∧ outcome r = None)) ∧
   length (filter is_Step (added s r)) = 1%nat ∧
   SimTime (world (final r)) = S (SimTime (world s))).
Proof.
  intros a r Hstep.
  pose proof (STEP_turn_shape narrow ParseFromString fuel buf from s Hstep) as Hshape.
  fold a r in Hshape. split.
  - destruct (add_motors a 0 (numActuators (plugin s)) []) as [cmd|].
    + destruct Hshape as (rest & Htr & Hrest & _).
      apply added_app in Htr. rewrite Htr.
      by destruct Hrest as [[-> _]|[[-> _]|(st & -> & _)]].
    + destruct Hshape as (Htr & _). apply added_app in Htr. rewrite Htr.
      simpl. lia.
  - intros Hlen.
    rewrite (add_motors_spec a (numActuators (plugin s)) 0 []) in Hshape by done.
    simpl in Hshape. rewrite drop_0 in Hshape.
    destruct Hshape as (rest & Htr & Hrest & Htime).
    apply added_app in Htr. rewrite Htr.
    split; [by exists rest|]. split; [|done].
    by destruct Hrest as [[-> _]|[[-> _]|(st & -> & _)]].
Qed.

(** ** The settle loop *)

Section Settle.

Variable narrow : float → float.

(** One turn of the [while (1)] of [FlushSensors]. *)
Lemma FlushSensors_loop_S fuel s :
  FlushSensors_loop narrow (S fuel) s =
  match keep_flushing (state (plugin s)) with
  | None => Halted OutOfRange s
  | Some false => Done tt s
  | Some true =>
      match deliver narrow (hd [] (feed (world s)))
              {| plugin := plugin s;
                 world := {| SimTime := S (SimTime (world s));
                             feed := tail (feed (world s)) |};
                 trace := trace s ++ [Step 1] |} with
      | Done _ s1 =>
          FlushSensors_loop narrow fuel
            {| plugin := plugin s1; world := ResetTime (world s1);
               trace := trace s1 ++ [SoftReset_done] |}
      | Halted h s1 => Halted h s1
      end
  end.
Proof.
  destruct s as [p w t]. simpl. unfold bind, this, checked. simpl.
  destruct (keep_flushing (state p)) as [[|]|]; simpl; [|done..].
  rewrite world_Step_1_spec. simpl.
  by destruct (deliver narrow _ _).
Qed.

(** Whatever the outcome, the settle loop only ticks and resets, and leaves
    the session members alone. *)
Lemma FlushSensors_loop_events fuel : ∀ s,
  ∃ evs, trace (final (FlushSensors_loop narrow fuel s)) = trace s ++ evs ∧
         Forall settle_event evs ∧
         same_session (plugin s) (plugin (final (FlushSensors_loop narrow fuel s))).
Proof.
  induction fuel as [|fuel IH]; intros s.
  - exists []. simpl. by rewrite app_nil_r.
  - rewrite FlushSensors_loop_S.
    destruct (keep_flushing (state (plugin s))) as [[|]|];
      [|exists []; simpl; by rewrite app_nil_r..].
    match goal with |- context [deliver narrow ?cbs ?s0] =>
      pose proof (deliver_spec narrow cbs s0) as Hd end.
    simpl in Hd.
    destruct (run_callbacks narrow _ _) as [q|] eqn:Hq.
    + rewrite Hd. simpl.
      match goal with |- context [FlushSensors_loop narrow fuel ?s1] =>
        destruct (IH s1) as (evs & Htr & Hevs & Hses) end.
      simpl in Htr, Hses.
      exists ([Step 1; SoftReset_done] ++ evs).
      split; [by rewrite Htr, <- !app_assoc|]. split.
      * simpl. apply Forall_cons_2; [by left|].
        apply Forall_cons_2; [by right|done].
      * etrans; [by eapply run_callbacks_session | exact Hses].
    + destruct Hd as (q & -> & Hses). simpl. exists [Step 1]. split; [done|].
      split; [|done]. apply Forall_cons_2; [by left|done].
Qed.

(** When the loop comes back it has made [M] turns for some [M] below the
    fuel: the store is the one after [M] ticks of the feed, the condition was
    true before each of them and is false now. *)
Lemma FlushSensors_loop_Done fuel : ∀ s s',
  FlushSensors_loop narrow fuel s = Done tt s' →
  ∃ M, (M < fuel)%nat ∧
    trace s' = trace s ++ settle_turns M ∧
    store_after narrow M (plugin s) (feed (world s)) = Some (plugin s') ∧
    keep_flushing (state (plugin s')) = Some false ∧
    SimTime (world s') = (if M is O then SimTime (world s) else O) ∧
    feed (world s') = drop M (feed (world s)).
Proof.
  induction fuel as [|fuel IH]; intros s s' Hrun; [done|].
  rewrite FlushSensors_loop_S in Hrun.
  destruct (keep_flushing (state (plugin s))) as [[|]|] eqn:Hk; [|simplify_eq|done].
  - match type of Hrun with context [deliver narrow ?cbs ?s0] =>
      pose proof (deliver_spec narrow cbs s0) as Hd end.
    simpl in Hd.
    destruct (run_callbacks narrow _ _) as [q|] eqn:Hq.
    + rewrite Hd in Hrun. simpl in Hrun.
      apply IH in Hrun as (M & HM & Htr & Hst & Hk' & Htime & Hfeed).
      simpl in *. exists (S M). split; [lia|]. split.
      { rewrite Htr, <- !app_assoc. done. }
      split; [simpl; by rewrite Hq|]. split; [done|]. split.
      { by destruct M. }
      rewrite Hfeed. destruct (feed (world s)); simpl; [by rewrite drop_nil|done].
    + destruct Hd as (q & Hd & _). by rewrite Hd in Hrun.
  - exists 0%nat. simpl. rewrite app_nil_r, drop_0. split; [lia|done].
Qed.

(** The loop makes exactly [M] turns when the condition holds on the store
    after each of the first [M] ticks and fails after tick [M]. *)
Lemma FlushSensors_loop_exact M : ∀ fuel s p',
  (M < fuel)%nat →
  (∀ k, (k < M)%nat →
     ∃ pk, store_after narrow k (plugin s) (feed (world s)) = Some pk ∧
           keep_flushing (state pk) = Some true) →
  store_after narrow M (plugin s) (feed (world s)) = Some p' →
  keep_flushing (state p') = Some false →
  FlushSensors_loop narrow fuel s =
  Done tt {| plugin := p';
             world := {| SimTime := (if M is O then SimTime (world s) else O);
                         feed := drop M (feed (world s)) |};
             trace := trace s ++ settle_turns M |}.
Proof.
  induction M as [|M IH]; intros fuel s p' Hfuel Hbefore Hat Hk;
    (destruct fuel as [|fuel]; [lia|]); rewrite FlushSensors_loop_S.
  - simpl in Hat. simplify_eq. rewrite Hk. destruct s as [p [t fd] tr]. simpl.
    by rewrite app_nil_r, drop_0.
  - destruct (Hbefore 0%nat) as (p0 & Hp0 & Hk0); [lia|].
    simpl in Hp0. simplify_eq. rewrite Hk0.
    simpl in Hat.
    destruct (run_callbacks narrow (plugin s) (hd [] (feed (world s))))
      as [q|] eqn:Hq; [|done].
    simpl in Hat.
    match goal with |- context [deliver narrow ?cbs ?s0] =>
      pose proof (deliver_spec narrow cbs s0) as Hd end.
    simpl in Hd. rewrite Hq in Hd. rewrite Hd. simpl.
    rewrite (IH fuel _ p'); simpl; [|lia| |done..].
    + f_equal. f_equal.
      * f_equal; [by destruct M|].
        destruct (feed (world s)); simpl; [by rewrite drop_nil|done].
      * by rewrite <- !app_assoc.
    + intros k Hlt. destruct (Hbefore (S k)) as (pk & Hpk & Hkk); [lia|].
      simpl in Hpk. rewrite Hq in Hpk. by exists pk.
Qed.

End Settle.

Lemma FlushSensors_unfold narrow fuel s :
  FlushSensors narrow fuel s =
  FlushSensors_loop narrow fuel
    {| plugin := plugin s; world := ResetTime (world s);
       trace := trace s ++ [SoftReset_done] |}.
Proof. done. Qed.

Lemma settle_turns_events M : Forall settle_event (settle_turns M).
Proof.
  induction M as [|M IH]; [constructor|].
  apply Forall_cons_2; [by left|]. apply Forall_cons_2; [by right|done].
Qed.

Lemma settle_events_no_Publish evs :
  Forall settle_event evs → Forall (λ e, is_Publish e = false) evs.
Proof. intros H. eapply Forall_impl; [done|]. by intros e [->| ->]. Qed.

Lemma settle_events_no_sendto evs :
  Forall settle_event evs → filter is_sendto evs = [].
Proof.
  induction 1 as [|e evs [->| ->] _ IH]; [done|..];
    by rewrite filter_cons_False by (by intros ?).
Qed.

Lemma settle_turns_Steps M : length (filter is_Step (settle_turns M)) = M.
Proof.
  induction M as [|M IH]; [done|].
  change (settle_turns (S M)) with (Step 1 :: SoftReset_done :: settle_turns M).
  rewrite filter_cons_True by done. rewrite filter_cons_False by (by intros ?).
  simpl. by rewrite IH.
Qed.

(** C9.  On the [RESET] branch the turn publishes no motor command, whatever
    its outcome.  When the settle sequence completes, the turn has only reset
    and ticked the simulator and then sent one state: the one the plugin
    holds, whose status is [OK] and whose time is the simulation time at that
    moment, addressed to the sender of the action. *)
Theorem RESET_turn_replies_once_and_publishes_nothing
    narrow ParseFromString (fuel : nat) (buf : list byte) (from : Addr) (s : Sys) :
  let a := fst (ParseFromString (take 1024 buf)) in
  let r := LoopThread_turn narrow ParseFromString fuel (Some (buf, from)) s in
  world_control a = RESET →
  Forall (λ e, is_Publish e = false) (added s r) ∧
  ∀ s', r = Done tt s' →
    (∃ M, added s r =
          SoftReset_done :: settle_turns M ++ [sendto (state (plugin s')) from]) ∧
    length (filter is_sendto (added s r)) = 1%nat ∧
    status_code (state (plugin s')) = OK ∧
    sim_time (state (plugin s')) = SimTime (world s').
Proof.
  intros a r Hreset. subst r. rewrite RESET_turn_unfold by done. fold a.
  rewrite FlushSensors_unfold. simpl.
  match goal with |- context [FlushSensors_loop narrow fuel ?s1] =>
    pose proof (FlushSensors_loop_events narrow fuel s1) as (evs & Htr & Hevs & Hses);
    pose proof (FlushSensors_loop_Done narrow fuel s1) as HDone;
    destruct (FlushSensors_loop narrow fuel s1) as [[] s2|h s2]
  end; simpl in *.
  - destruct (HDone s2 eq_refl) as (M & _ & HM & _). clear HDone.
    destruct Hses as (_ & _ & _ & _ & Hfrom).
    split.
    + erewrite added_app; [|simpl; rewrite Htr, <- !app_assoc; done].
      apply Forall_cons_2; [done|]. apply Forall_app_2; [|by repeat constructor].
      by apply settle_events_no_Publish.
    + intros s' [= <-]. simpl.
      erewrite added_app; [|simpl; rewrite HM, <- !app_assoc; done].
      rewrite Hfrom. split; [by exists M|]. split; [|done].
      simpl. rewrite filter_cons_False by (by intros ?).
      rewrite filter_app, settle_events_no_sendto by apply settle_turns_events.
      done.
  - split; [|done].
    erewrite added_app; [|simpl; rewrite Htr, <- !app_assoc; done].
    apply Forall_cons_2; [done|]. by apply settle_events_no_Publish.
Qed.

(** The callbacks neither read nor write what [ReceiveAction] stores. *)
Lemma run_callback_with_received narrow p a from cb :
  run_callback narrow (with_received p a from) cb =
  (λ q, with_received q a from) <$> run_callback narrow p cb.
Proof.
  destruct cb as [m|m]; simpl.
  - unfold EscSensorCallback, set_esc_motor_angular_velocity,
      set_esc_temperature, set_esc_current, set_esc_voltage. simpl.
    repeat (match goal with |- context [set_at ?l ?i ?v] =>
              destruct (set_at l i v); simpl; [|done] end).
    done.
  - unfold ImuCallback, set_imu_angular_velocity_rpy, set_imu_orientation_quat,
      set_imu_linear_acceleration_xyz. simpl.
    repeat (match goal with |- context [set_at ?l ?i ?v] =>
              destruct (set_at l i v); simpl; [|done] end).
    done.
Qed.

Lemma run_callbacks_with_received narrow a from cbs : ∀ p,
  run_callbacks narrow (with_received p a from) cbs =
  (λ q, with_received q a from) <$> run_callbacks narrow p cbs.
Proof.
  induction cbs as [|cb cbs IH]; intros p; simpl; [done|].
  rewrite run_callback_with_received.
  destruct (run_callback narrow p cb) as [q|]; simpl; [apply IH | done].
Qed.

Lemma store_after_with_received narrow a from k : ∀ p fd,
  store_after narrow k (with_received p a from) fd =
  (λ q, with_received q a from) <$> store_after narrow k p fd.
Proof.
  induction k as [|k IH]; intros p fd; simpl; [done|].
  rewrite run_callbacks_with_received.
  destruct (run_callbacks narrow p (hd [] fd)) as [q|]; simpl; [apply IH | done].
Qed.

Lemma keep_flushing_not_settled (st : State) :
  not_settled (imu_angular_velocity_rpy st) → keep_flushing st = Some true.
Proof.
  unfold keep_flushing, get_at, not_settled, above_tolerance.
  intros [Hlen|(r & p & y & rest & -> & Hex)].
  - by destruct (Nat.ltb_spec (length (imu_angular_velocity_rpy st)) 2); [|lia].
  - simpl.
    destruct (error <? abs r)%float; [done|].
    destruct (error <? abs p)%float; [done|].
    f_equal. by destruct Hex as [?|[?|?]].
Qed.

Lemma keep_flushing_settled (st : State) :
  settled (imu_angular_velocity_rpy st) → keep_flushing st = Some false.
Proof.
  unfold keep_flushing, get_at, settled, above_tolerance.
  intros (r & p & y & rest & -> & Hr & Hp & Hy). simpl.
  destruct (error <? abs r)%float; [done|].
  destruct (error <? abs p)%float; [done|].
  by destruct (error <? abs y)%float.
Qed.

(** C6.  Let the angular velocity in the store be unsettled (an axis above
    the tolerance 0.017, or fewer than two entries) after each of the first
    [M] ticks, tick 0 being the store as the action finds it, and settled
    (three axes, none above the tolerance) after tick [M].  Then the [RESET]
    turn terminates: with any fuel above [M] it comes back, having ticked the
    simulator exactly [M] times, and its only reply is one state with status
    [OK] that carries the settled reading. *)
Theorem RESET_turn_settles_after_exactly_M_ticks
    narrow ParseFromString (fuel : nat) (buf : list byte) (from : Addr) (s : Sys)
    (M : nat) :
  let a := fst (ParseFromString (take 1024 buf)) in
  let r := LoopThread_turn narrow ParseFromString fuel (Some (buf, from)) s in
  world_control a = RESET →
  (∀ k, (k < M)%nat →
     ∃ rpy, reading narrow k (plugin s) (feed (world s)) = Some rpy ∧
            not_settled rpy) →
  (∃ rpy, reading narrow M (plugin s) (feed (world s)) = Some rpy ∧
          settled rpy) →
  (M < fuel)%nat →
  ∃ s', r = Done tt s' ∧
    added s r = SoftReset_done :: settle_turns M ++ [sendto (state (plugin s')) from] ∧
    length (filter is_Step (added s r)) = M ∧
    length (filter is_sendto (added s r)) = 1%nat ∧
    status_code (state (plugin s')) = OK ∧
    settled (imu_angular_velocity_rpy (state (plugin s'))).
Proof.
  intros a r Hreset Hbefore (rpy & HM & Hin) Hfuel. subst r.
  rewrite RESET_turn_unfold by done. fold a. rewrite FlushSensors_unfold.
  unfold reading in HM.
  destruct (store_after narrow M (plugin s) (feed (world s))) as [pM|] eqn:HpM;
    [|done].
  simpl in HM. simplify_eq.
  rewrite (FlushSensors_loop_exact narrow M fuel _ (with_received pM a from)); simpl.
  - eexists. split; [done|]. simpl.
    erewrite added_app; [|simpl; rewrite <- !app_assoc; done].
    split; [done|]. split; [|split; [|done]].
    + simpl. rewrite filter_cons_False by (by intros ?).
      rewrite filter_app, length_app, settle_turns_Steps. simpl. lia.
    + simpl. rewrite filter_cons_False by (by intros ?).
      rewrite filter_app, settle_events_no_sendto by apply settle_turns_events.
      done.
  - done.
  - intros k Hk. destruct (Hbefore k Hk) as (rk & Hrk & Hout).
    unfold reading in Hrk. rewrite store_after_with_received.
    destruct (store_after narrow k (plugin s) (feed (world s))) as [pk|]; [|done].
    simpl in Hrk. simplify_eq. eexists. split; [done|].
    by apply keep_flushing_not_settled.
  - by rewrite store_after_with_received, HpM.
  - by apply keep_flushing_settled.
Qed.

(** C7.  After [InitState] on a fresh state message the store holds the
    sentinel angular velocity 1.0 on each of its three axes; each exceeds the
    tolerance 0.017, so the condition of the settle loop answers "keep
    flushing", and the first settle sequence ticks the simulator at least
    once before anything else can happen. *)
Theorem seeded_store_forces_a_warm_up_tick
    narrow (p : Plugin) (w : World) (t : list Event) (fuel : nat) :
  let seeded := InitState (with_state p State_new) in
  let s := {| plugin := seeded; world := w; trace := t |} in
  imu_angular_velocity_rpy (state seeded) = [1; 1; 1]%float ∧
  (∀ v, v ∈ imu_angular_velocity_rpy (state seeded) → above_tolerance v) ∧
  keep_flushing (state seeded) = Some true ∧
  ∃ rest, added s (FlushSensors narrow (S fuel) s) = SoftReset_done :: Step 1 :: rest.
Proof.
  intros seeded s.
  assert (Hrpy : imu_angular_velocity_rpy (state seeded) = [1; 1; 1]%float) by done.
  assert (Hkeep : keep_flushing (state seeded) = Some true).
  { unfold keep_flushing. rewrite Hrpy. reflexivity. }
  split; [done|]. split; [|split; [done|]].
  - rewrite Hrpy. intros v Hv. rewrite !elem_of_cons, elem_of_nil in Hv.
    destruct Hv as [->|[->|[->|[]]]]; reflexivity.
  - rewrite FlushSensors_unfold, FlushSensors_loop_S. simpl plugin. rewrite Hkeep.
    match goal with |- context [deliver narrow ?cbs ?s0] =>
      pose proof (deliver_spec narrow cbs s0) as Hd end.
    destruct (run_callbacks narrow _ _) as [q|].
    + rewrite Hd.
      match goal with |- context [FlushSensors_loop narrow fuel ?s1] =>
        destruct (FlushSensors_loop_events narrow fuel s1) as (evs & Htr & _) end.
      eexists. apply added_app. rewrite Htr. simpl. rewrite <- !app_assoc. done.
    + destruct Hd as (q & -> & _). eexists. apply added_app. simpl.
      rewrite <- !app_assoc. done.
Qed.

(** ** The callback budget *)

Lemma CalculateCallbackCount_fold (n : nat) (l : list Sensors) : ∀ c,
  fold_left
    (λ count sensor,
       match sensor with IMU => count + 1 | ESC => count + Z.of_nat n end) l c =
  c + Z.of_nat (length (filter (λ x, x = IMU) l))
    + Z.of_nat n * Z.of_nat (length (filter (λ x, x = ESC) l)).
Proof.
  induction l as [|[] l IH]; intros c; cbn [fold_left].
  - simpl. lia.
  - rewrite IH, (filter_cons_True (λ x, x = IMU)),
      (filter_cons_False (λ x, x = ESC)) by done.
    simpl. lia.
  - rewrite IH, (filter_cons_True (λ x, x = ESC)),
      (filter_cons_False (λ x, x = IMU)) by done.
    simpl. lia.
Qed.

Lemma SensorEnabled_elem_of p sensor :
  SensorEnabled p sensor = true ↔ sensor ∈ supportedSensors p.
Proof.
  unfold SensorEnabled. induction (supportedSensors p) as [|x l IH]; simpl.
  - rewrite elem_of_nil. by split.
  - rewrite elem_of_cons. case_decide as Hx.
    + split; [by left; symmetry | done].
    + rewrite IH. split; [by right | by intros [->|?]].
Qed.


Section Budget.

Variable narrow : float → float.
Variable ParseFromString : list byte → Action * bool.
Variable fuel : nat.



End Budget.


(** ** The completion barrier *)

Section BarrierFacts.

Import Barrier.

Variable narrow : float → float.

Lemma step_Arrival s cb s1 :
  step narrow s (Arrival cb) = Some s1 →
  sensorCallbackCount (obj s1) = sensorCallbackCount (obj s) + 1 ∧
  waiter s1 = notify_all (waiter s) ∧
  passes s1 = passes s.
Proof.
  simpl. destruct (run_callback narrow (obj s) cb) as [q|] eqn:Hq; [|done].
  intros [= <-]. simpl. by apply run_callback_count in Hq.
Qed.

Lemma step_Waiter_runs s :
  waiter s = Entering ∨ waiter s = Woken →
  ∃ s1, step narrow s Waiter_runs = Some s1 ∧ obj s1 = obj s ∧
    (sensorCallbackCount (obj s) < 0 → waiter s1 = Sleeping ∧ passes s1 = passes s) ∧
    (0 ≤ sensorCallbackCount (obj s) → waiter s1 = Returned ∧ passes s1 = S (passes s)).
Proof.
  intros Hw. simpl. unfold must_wait.
  destruct (Z.ltb_spec (sensorCallbackCount (obj s)) 0);
    (eexists; split; [by destruct Hw as [-> | ->]|]); simpl;
    (split; [done|]); split; intros; (done || lia).
Qed.

Lemma step_inv k n s m s1 :
  inv k n s → step narrow s m = Some s1 →
  inv k (n + (if is_Arrival m then 1 else 0)) s1.
Proof.
  intros (Hc & Hsleep & Hret & Hpass) Hstep. destruct m as [cb| |].
  - apply step_Arrival in Hstep as (Hc1 & Hw1 & Hp1). simpl.
    unfold inv. rewrite Hc1, Hw1, Hp1, Hpass.
    split; [lia|].
    destruct (waiter s); simpl; try specialize (Hret eq_refl);
      (split; [done|]); split; try done; intros; lia.
  - simpl in Hstep. unfold must_wait in Hstep. rewrite Nat.add_0_r.
    destruct (waiter s) eqn:Hw;
      try (simplify_eq; unfold inv; by rewrite Hw);
      destruct (Z.ltb_spec (sensorCallbackCount (obj s)) 0); simplify_eq;
      unfold inv; simpl; rewrite Hpass; (split; [done|]);
      (split; [done|]); (split; [intros; lia || done|done]).
  - simpl in Hstep. simplify_eq. rewrite Nat.add_0_r. unfold inv. simpl.
    rewrite Hpass. split; [done|].
    destruct (waiter s); simpl; (split; [done|]); split; done.
Qed.

Lemma run_inv k ms : ∀ n s s1,
  inv k n s → run narrow s ms = Some s1 → inv k (n + arrivals ms) s1.
Proof.
  induction ms as [|m ms IH]; intros n s s1 Hinv Hrun; simpl in Hrun.
  - simplify_eq. by rewrite Nat.add_0_r.
  - destruct (step narrow s m) as [s2|] eqn:Hstep; [|done]. simpl in Hrun.
    eapply IH in Hrun; [|by eapply step_inv].
    replace (n + arrivals (m :: ms))%nat
      with (n + (if is_Arrival m then 1 else 0) + arrivals ms)%nat; [done|].
    unfold arrivals. destruct m; simpl;
      rewrite ?filter_cons_True, ?filter_cons_False by (done || by intros ?);
      simpl; lia.
Qed.

Lemma armed_inv p k :
  numSensorCallbacks p = Z.of_nat k → inv k 0 (armed p).
Proof. intros Hk. unfold inv. simpl. rewrite Hk. repeat split; (done || lia). Qed.

End BarrierFacts.

(** C2.  Arming with expected count [k] leaves [-k] in the counter.  A
    callback arrival adds exactly one to it and wakes a sleeping waiter.  The
    waiter goes to sleep when it finds the counter negative and leaves the
    [while] when it finds it at zero or above.  Hence, along every
    interleaving [ms] of arrivals, waiter turns and spurious wake-ups after
    the arming: the counter is [-k] plus the number of arrivals; the waiter
    has not returned unless [k] arrivals have happened; it returns at most
    once; and once [k] arrivals have happened it is not asleep, and its next
    turn takes it out of the wait, for the first and only time. *)
Theorem barrier_opens_once_and_not_before_the_kth_arrival
    narrow (p : Plugin) (k : nat) (ms : list Barrier.Move) (s' : Barrier.Shared) :
  numSensorCallbacks p = Z.of_nat k →
  Barrier.run narrow (Barrier.armed p) ms = Some s' →
  sensorCallbackCount (Barrier.obj (Barrier.armed p)) = - Z.of_nat k ∧
  (∀ s cb s1,
     Barrier.step narrow s (Barrier.Arrival cb) = Some s1 →
     sensorCallbackCount (Barrier.obj s1) = sensorCallbackCount (Barrier.obj s) + 1 ∧
     (Barrier.waiter s = Barrier.Sleeping → Barrier.waiter s1 = Barrier.Woken)) ∧
  (∀ s, Barrier.waiter s = Barrier.Entering ∨ Barrier.waiter s = Barrier.Woken →
     ∃ s1, Barrier.step narrow s Barrier.Waiter_runs = Some s1 ∧
       (sensorCallbackCount (Barrier.obj s) < 0 →
          Barrier.waiter s1 = Barrier.Sleeping) ∧
       (0 ≤ sensorCallbackCount (Barrier.obj s) →
          Barrier.waiter s1 = Barrier.Returned)) ∧
  sensorCallbackCount (Barrier.obj s') = - Z.of_nat k + Z.of_nat (Barrier.arrivals ms) ∧
  (Barrier.waiter s' = Barrier.Returned → (k ≤ Barrier.arrivals ms)%nat) ∧
  (Barrier.passes s' ≤ 1)%nat ∧
  (Barrier.passes s' = 1%nat ↔ Barrier.waiter s' = Barrier.Returned) ∧
  ((k ≤ Barrier.arrivals ms)%nat →
     Barrier.waiter s' ≠ Barrier.Sleeping ∧
     ∃ s'', Barrier.step narrow s' Barrier.Waiter_runs = Some s'' ∧
            Barrier.waiter s'' = Barrier.Returned ∧ Barrier.passes s'' = 1%nat).
Proof.
  intros Hk Hrun.
  pose proof (run_inv narrow k ms 0 _ _ (armed_inv p k Hk) Hrun)
    as (Hc & Hsleep & Hret & Hpass).
  simpl in Hc. split; [simpl; lia|]. split; [|split].
  - intros s cb s1 Hstep. apply step_Arrival in Hstep as (? & Hw & _).
    split; [done|]. intros Hs. by rewrite Hw, Hs.
  - intros s Hw. destruct (step_Waiter_runs narrow s Hw) as (s1 & ? & _ & Hneg & Hpos).
    exists s1. split; [done|]. split; intros; [by apply Hneg | by apply Hpos].
  - split; [done|]. split; [done|]. split; [|split].
    + rewrite Hpass. case_decide; lia.
    + rewrite Hpass. case_decide; split; (done || lia).
    + intros Hall.
      assert (Hawake : Barrier.waiter s' ≠ Barrier.Sleeping).
      { intros Hs. apply Hsleep in Hs. lia. }
      split; [done|].
      destruct (Barrier.waiter s') eqn:Hw; [| done | |].
      * destruct (step_Waiter_runs narrow s') as (s1 & ? & _ & _ & Hpos); [by left|].
        exists s1. split; [done|]. destruct Hpos as [? ->]; [lia|].
        split; [done|]. by rewrite Hpass.
      * destruct (step_Waiter_runs narrow s') as (s1 & ? & _ & _ & Hpos); [by right|].
        exists s1. split; [done|]. destruct Hpos as [? ->]; [lia|].
        split; [done|]. by rewrite Hpass.
      * exists s'. simpl. rewrite Hw. split; [done|]. split; [done|].
        by rewrite Hpass.
Qed.

(** C8.  With an expected count of zero, arming leaves zero in the counter,
    the condition of the [while] is false when the waiter first tests it, and
    its first turn takes it past the wait; along no interleaving does it ever
    sleep.  In the loop thread, a [STEP] turn of a plugin without sensor
    callbacks never ends asleep on the barrier. *)
Theorem barrier_with_zero_budget_never_blocks narrow (p : Plugin) :
  numSensorCallbacks p = 0 →
  sensorCallbackCount (ResetCallbackCount p) = 0 ∧
  Barrier.must_wait (ResetCallbackCount p) = false ∧
  Barrier.step narrow (Barrier.armed p) Barrier.Waiter_runs =
    Some {| Barrier.obj := ResetCallbackCount p;
            Barrier.waiter := Barrier.Returned; Barrier.passes := 1 |} ∧
  (∀ ms s', Barrier.run narrow (Barrier.armed p) ms = Some s' →
            Barrier.waiter s' ≠ Barrier.Sleeping) ∧
  (∀ ParseFromString fuel buf from w t,
     world_control (fst (ParseFromString (take 1024 buf))) = STEP →
     outcome (LoopThread_turn narrow ParseFromString fuel (Some (buf, from))
                {| plugin := p; world := w; trace := t |}) ≠ Some Blocked).
Proof.
  intros Hzero.
  assert (Hc : sensorCallbackCount (ResetCallbackCount p) = 0).
  { simpl. lia. }
  split; [done|]. split; [by unfold Barrier.must_wait; rewrite Hc|].
  split; [by simpl; unfold Barrier.must_wait; rewrite Hc|]. split.
  - intros ms s' Hrun.
    pose proof (run_inv narrow 0 ms 0 _ _ (armed_inv p 0 Hzero) Hrun)
      as (Hcount & Hsleep & _).
    intros Hs. apply Hsleep in Hs. lia.
  - intros ParseFromString fuel buf from w t Hstep.
    rewrite STEP_turn_unfold by done. simpl.
    destruct (add_motors _ _ _ _) as [cmd|]; [|done].
    rewrite world_Step_1_spec. simpl.
    match goal with |- context [deliver narrow ?cbs ?s0] =>
      pose proof (deliver_spec narrow cbs s0) as Hd end.
    simpl in Hd.
    destruct (run_callbacks narrow _ _) as [q|] eqn:Hq.
    + rewrite Hd, WaitForSensorsThenSend_spec. simpl.
      apply run_callbacks_count in Hq. simpl in Hq.
      destruct (Z.ltb_spec (sensorCallbackCount q) 0); [lia|done].
    + by destruct Hd as (q & -> & _).
Qed.

(** ** Datagrams the decoder rejects *)

Section Replies.

Variable narrow : float → float.
Variable ParseFromString : list byte → Action * bool.
Variable fuel : nat.

(** A turn that was handed a datagram does something, and if it comes back
    its last act was to send a state to the datagram's sender. *)
Lemma LoopThread_turn_reply buf from s :
  let r := LoopThread_turn narrow ParseFromString fuel (Some (buf, from)) s in
  ∃ e evs, trace (final r) = trace s ++ e :: evs ∧
    ∀ s', r = Done tt s' → ∃ st, last (e :: evs) = Some (sendto st from).
Proof.
  intros r. subst r.
  destruct (world_control (fst (ParseFromString (take 1024 buf)))) eqn:Hwc.
  - rewrite STEP_turn_unfold by done.
    destruct (add_motors _ _ _ _) as [cmd|]; simpl.
    2:{ eexists _, []. split; [done|]. done. }
    rewrite world_Step_1_spec. simpl.
    match goal with |- context [deliver narrow ?cbs ?s0] =>
      pose proof (deliver_spec narrow cbs s0) as Hd end.
    simpl in Hd.
    destruct (run_callbacks narrow _ _) as [q|] eqn:Hq.
    + rewrite Hd, WaitForSensorsThenSend_spec. simpl.
      apply run_callbacks_session in Hq as (_ & _ & _ & _ & Hq). simpl in Hq.
      rewrite Hq.
      destruct (sensorCallbackCount q <? 0); simpl;
        rewrite <- !app_assoc; eexists _, _; (split; [done|]); [done|].
      intros s' _. by eexists.
    + destruct Hd as (q & -> & _). simpl.
      rewrite <- !app_assoc; eexists _, _; (split; [done|]); done.
  - rewrite RESET_turn_unfold by done. rewrite FlushSensors_unfold.
    match goal with |- context [FlushSensors_loop narrow fuel ?s1] =>
      destruct (FlushSensors_loop_events narrow fuel s1)
        as (evs & Htr & Hevs & (_ & _ & _ & _ & Hfrom));
      destruct (FlushSensors_loop narrow fuel s1) as [[] s2|h s2]
    end; simpl in *.
    + rewrite Htr, <- !app_assoc. eexists _, _. split; [done|].
      intros s' _. rewrite Hfrom. eexists.
      by rewrite app_comm_cons, last_snoc.
    + rewrite Htr, <- !app_assoc. eexists _, _. split; [done|]. done.
Qed.

End Replies.

(** C3, as the code has it.  [ReceiveAction] does not look at the result of
    [ParseFromString]: for a datagram that the decoder rejects it still
    reports that an action was received, having stored whatever content the
    decoder left behind and the sender's address.  The turn is then not
    skipped: it dispatches on that content, so the trace grows, and whenever
    the turn comes back it has sent a state to the sender.  Only the absence
    of a datagram makes the turn do nothing. *)
Theorem rejected_datagram_is_processed_and_answered
    narrow ParseFromString (fuel : nat) (buf : list byte) (from : Addr) (s : Sys) :
  let msg := take 1024 buf in
  let r := LoopThread_turn narrow ParseFromString fuel (Some (buf, from)) s in
  snd (ParseFromString msg) = false →
  ReceiveAction ParseFromString (Some (buf, from)) s =
    Done true {| plugin := with_received (plugin s) (fst (ParseFromString msg)) from;
                 world := world s; trace := trace s |} ∧
  added s r ≠ [] ∧
  (∀ s', r = Done tt s' → ∃ st, last (added s r) = Some (sendto st from)) ∧
  LoopThread_turn narrow ParseFromString fuel None s = Done tt s.
Proof.
  intros msg r _. split; [done|].
  destruct (LoopThread_turn_reply narrow ParseFromString fuel buf from s)
    as (e & evs & Htr & Hlast).
  apply added_app in Htr. fold r in Htr, Hlast. rewrite Htr.
  split; [done|]. split; [done|]. by destruct s.
Qed.

(** ** Bootstrap after a failed configuration *)

Section BootFacts.

Variable getenv : EnvVar → option string.
Variable stoi : string → option Z.
Variable bind : Z → bool.

Lemma LoadVars_bind_fails p :
  getenv ENV_SITL_PORT = None → bind 9002 = false →
  LoadVars getenv stoi bind p =
  Some (p, [gzerr (failed_to_bind_aborting_plugin 9002)]).
Proof.
  intros Hport Hbind. unfold LoadVars, Bind. rewrite Hport. simpl.
  change (9002 mod 65536) with 9002. by rewrite Hbind.
Qed.

Lemma LoadVars_num_motors_missing p sdf :
  getenv ENV_SITL_PORT = None → bind 9002 = true →
  getenv ENV_DIGITAL_TWIN_SDF = Some sdf →
  getenv ENV_NUM_MOTORS = None →
  LoadVars getenv stoi bind p =
  Some (with_digitalTwinSDF p sdf, [gzerr num_motors_not_set]).
Proof.
  intros Hport Hbind Hsdf Hnum. unfold LoadVars, Bind. rewrite Hport. simpl.
  change (9002 mod 65536) with 9002. by rewrite Hbind, Hsdf, Hnum.
Qed.

End BootFacts.

(** C4, as the code has it.  When [LoadVars] has logged a diagnostic and
    returned, [Load] carries on with whatever the plugin object holds: it
    computes the callback count, subscribes to the sensors on record, seeds
    the state, advertises the command topic, pauses the world, and starts the
    loop thread.  A failed bind on the default port is one such case. *)
Theorem Load_starts_the_loop_thread_after_LoadVars_fails
    getenv stoi bind (p p' : Plugin) (d : Diagnostic) :
  LoadVars getenv stoi bind p = Some (p', [gzerr d]) →
  Load getenv stoi bind p =
    Some (InitState (CalculateCallbackCount p'),
          gzerr d :: subscribe_all (CalculateCallbackCount p') ++
          [Advertise_cmd; SetPaused; StartLoopThread]) ∧
  (getenv ENV_SITL_PORT = None → bind 9002 = false →
   p' = p ∧ d = failed_to_bind_aborting_plugin 9002).
Proof.
  intros Hvars. split.
  - unfold Load. by rewrite Hvars.
  - intros Hport Hbind.
    rewrite (LoadVars_bind_fails getenv stoi bind p Hport Hbind) in Hvars.
    by simplify_eq.
Qed.

(** * Worked instances on the two-actuator rig *)

Lemma STEP_turn_on_the_rig :
  world_control (fst (Rig.decoder (take 1024 [x00]))) = STEP ∧
  (numActuators (plugin Rig.sys) ≤ length (motor (fst (Rig.decoder (take 1024 [x00])))))%nat ∧
  length (filter is_Step
            (added Rig.sys
               (LoopThread_turn Rig.exact Rig.decoder 1 (Some ([x00], Rig.agent)) Rig.sys)))
    = 1%nat ∧
  SimTime (world (final (LoopThread_turn Rig.exact Rig.decoder 1
                           (Some ([x00], Rig.agent)) Rig.sys))) = 8%nat.
Proof.
  assert (H1 : world_control (fst (Rig.decoder (take 1024 [x00]))) = STEP)
    by reflexivity.
  assert (H2 : (numActuators (plugin Rig.sys)
                ≤ length (motor (fst (Rig.decoder (take 1024 [x00])))))%nat)
    by (vm_compute; lia).
  split; [exact H1|]. split; [exact H2|].
  exact (proj2 (proj2 (STEP_turn_advances_exactly_one_tick
                         Rig.exact Rig.decoder 1 [x00] Rig.agent Rig.sys H1) H2)).
Defined.

Lemma barrier_on_the_rig :
  numSensorCallbacks Rig.loaded = Z.of_nat 3 ∧
  ∃ s', Barrier.run Rig.exact (Barrier.armed Rig.loaded)
          [Barrier.Waiter_runs; Barrier.Arrival (OnEsc (Rig.esc_msg 1));
           Barrier.Spurious_wakeup; Barrier.Waiter_runs;
           Barrier.Arrival (OnImu (Rig.imu_msg 0));
           Barrier.Arrival (OnEsc (Rig.esc_msg 0))] = Some s' ∧
    sensorCallbackCount (Barrier.obj s') = 0 ∧
    Barrier.waiter s' = Barrier.Woken ∧
    ∃ s'', Barrier.step Rig.exact s' Barrier.Waiter_runs = Some s'' ∧
           Barrier.waiter s'' = Barrier.Returned ∧ Barrier.passes s'' = 1%nat.
Proof.
  assert (H1 : numSensorCallbacks Rig.loaded = Z.of_nat 3) by reflexivity.
  split; [exact H1|]. eexists. split; [vm_compute; reflexivity|].
  split; [reflexivity|]. split; [reflexivity|].
  match goal with |- ∃ s'', Barrier.step _ ?s' _ = _ ∧ _ =>
    assert (Hrun : Barrier.run Rig.exact (Barrier.armed Rig.loaded)
              [Barrier.Waiter_runs; Barrier.Arrival (OnEsc (Rig.esc_msg 1));
               Barrier.Spurious_wakeup; Barrier.Waiter_runs;
               Barrier.Arrival (OnImu (Rig.imu_msg 0));
               Barrier.Arrival (OnEsc (Rig.esc_msg 0))] = Some s')
      by (vm_compute; reflexivity)
  end.
  destruct (barrier_opens_once_and_not_before_the_kth_arrival
              Rig.exact Rig.loaded 3 _ _ H1 Hrun)
    as (_ & _ & _ & _ & _ & _ & _ & Hopen).
  apply Hopen. vm_compute. lia.
Defined.


Lemma settle_on_the_rig :
  world_control (fst (Rig.decoder (take 1024 [x01]))) = RESET ∧
  reading Rig.exact 0 Rig.loaded (feed Rig.sim) = Some [1; 1; 1]%float ∧
  reading Rig.exact 1 Rig.loaded (feed Rig.sim) = Some [0.5; 0; 0]%float ∧
  reading Rig.exact 2 Rig.loaded (feed Rig.sim) = Some [0.0078125; 0; 0]%float ∧
  ∃ s', LoopThread_turn Rig.exact Rig.decoder 3 (Some ([x01], Rig.agent)) Rig.sys
          = Done tt s' ∧
    length (filter is_Step
              (added Rig.sys
                 (LoopThread_turn Rig.exact Rig.decoder 3
                    (Some ([x01], Rig.agent)) Rig.sys))) = 2%nat ∧
    status_code (state (plugin s')) = OK.
Proof.
  assert (H1 : world_control (fst (Rig.decoder (take 1024 [x01]))) = RESET)
    by reflexivity.
  assert (H2 : ∀ k, (k < 2)%nat →
            ∃ rpy, reading Rig.exact k (plugin Rig.sys) (feed (world Rig.sys)) = Some rpy ∧
                   not_settled rpy).
  { intros [|[|k]] Hk; [| |lia].
    - exists [1; 1; 1]%float. split; [reflexivity|]. right.
      exists 1%float, 1%float, 1%float, []. split; [reflexivity|].
      left. reflexivity.
    - exists [0.5; 0; 0]%float. split; [reflexivity|]. right.
      exists 0.5%float, 0%float, 0%float, []. split; [reflexivity|].
      left. reflexivity. }
  assert (H3 : ∃ rpy, reading Rig.exact 2 (plugin Rig.sys) (feed (world Rig.sys)) = Some rpy ∧
                      settled rpy).
  { exists [0.0078125; 0; 0]%float. split; [reflexivity|].
    exists 0.0078125%float, 0%float, 0%float, []. split; [reflexivity|].
    repeat split; discriminate. }
  assert (H4 : (2 < 3)%nat) by lia.
  split; [exact H1|]. split; [reflexivity|]. split; [reflexivity|].
  split; [reflexivity|].
  destruct (RESET_turn_settles_after_exactly_M_ticks
              Rig.exact Rig.decoder 3 [x01] Rig.agent Rig.sys 2 H1 H2 H3 H4)
    as (s' & Hrun & _ & Hticks & _ & Hok & _).
  exists s'. split; [exact Hrun|]. split; [exact Hticks | exact Hok].
Defined.

Lemma zero_budget_on_the_rig :
  numSensorCallbacks Rig.constructed = 0 ∧
  Barrier.step Rig.exact (Barrier.armed Rig.constructed) Barrier.Waiter_runs =
    Some {| Barrier.obj := ResetCallbackCount Rig.constructed;
            Barrier.waiter := Barrier.Returned; Barrier.passes := 1 |} ∧
  outcome (LoopThread_turn Rig.exact Rig.decoder 1 (Some ([], Rig.agent))
             {| plugin := Rig.constructed; world := Rig.sim; trace := [] |})
    ≠ Some Blocked.
Proof.
  assert (H1 : numSensorCallbacks Rig.constructed = 0) by reflexivity.
  split; [exact H1|].
  destruct (barrier_with_zero_budget_never_blocks Rig.exact Rig.constructed H1)
    as (_ & _ & Hstep & _ & Hturn).
  split; [exact Hstep|].
  apply (Hturn Rig.decoder 1%nat [] Rig.agent Rig.sim []). reflexivity.
Defined.

Lemma RESET_turn_on_the_rig :
  world_control (fst (Rig.decoder (take 1024 [x01]))) = RESET ∧
  ∃ s', LoopThread_turn Rig.exact Rig.decoder 3 (Some ([x01], Rig.agent)) Rig.sys
          = Done tt s' ∧
    Forall (λ e, is_Publish e = false)
      (added Rig.sys
         (LoopThread_turn Rig.exact Rig.decoder 3 (Some ([x01], Rig.agent)) Rig.sys)) ∧
    length (filter is_sendto
              (added Rig.sys
                 (LoopThread_turn Rig.exact Rig.decoder 3
                    (Some ([x01], Rig.agent)) Rig.sys))) = 1%nat ∧
    status_code (state (plugin s')) = OK ∧
    sim_time (state (plugin s')) = 0%nat.
Proof.
  assert (H1 : world_control (fst (Rig.decoder (take 1024 [x01]))) = RESET)
    by reflexivity.
  split; [exact H1|]. eexists. split; [vm_compute; reflexivity|].
  destruct (RESET_turn_replies_once_and_publishes_nothing
              Rig.exact Rig.decoder 3 [x01] Rig.agent Rig.sys H1) as (Hpub & Hdone).
  split; [exact Hpub|].
  destruct (Hdone _ ltac:(vm_compute; reflexivity)) as (_ & Hone & Hok & Htime).
  split; [exact Hone|]. split; [exact Hok | exact Htime].
Defined.

Lemma EscSensorCallback_on_the_rig :
  esc_sized Rig.loaded ∧
  (id (Rig.esc_msg 1) < numActuators Rig.loaded)%nat ∧
  ∃ p', EscSensorCallback Rig.exact Rig.loaded (Rig.esc_msg 1) = Some p' ∧
    esc_temperature (state p') = [10000; 30]%float ∧
    imu_angular_velocity_rpy (state p') = [1; 1; 1]%float.
Proof.
  assert (H1 : esc_sized Rig.loaded) by (repeat split).
  assert (H2 : (id (Rig.esc_msg 1) < numActuators Rig.loaded)%nat)
    by (vm_compute; lia).
  split; [exact H1|]. split; [exact H2|].
  destruct (proj1 (EscSensorCallback_writes_only_at_id
                     Rig.exact Rig.loaded (Rig.esc_msg 1) H1) H2)
    as (p' & Hrun & _).
  exists p'. split; [exact Hrun|].
  vm_compute in Hrun. injection Hrun as <-. split; reflexivity.
Defined.

Lemma rejected_datagram_on_the_rig :
  snd (Rig.decoder (take 1024 [xff])) = false ∧
  ReceiveAction Rig.decoder (Some ([xff], Rig.agent)) Rig.sys =
    Done true {| plugin := with_received Rig.loaded Action_new Rig.agent;
                 world := Rig.sim; trace := [] |} ∧
  added Rig.sys
    (LoopThread_turn Rig.exact Rig.decoder 1 (Some ([xff], Rig.agent)) Rig.sys) ≠ [].
Proof.
  assert (H1 : snd (Rig.decoder (take 1024 [xff])) = false) by reflexivity.
  split; [exact H1|].
  destruct (rejected_datagram_is_processed_and_answered
              Rig.exact Rig.decoder 1 [xff] Rig.agent Rig.sys H1) as (Hrecv & Hadded & _).
  split; [exact Hrecv | exact Hadded].
Defined.

Lemma Load_on_a_taken_port :
  LoadVars Rig.no_env Rig.no_stoi Rig.port_taken Rig.constructed =
    Some (Rig.constructed, [gzerr (failed_to_bind_aborting_plugin 9002)]) ∧
  Load Rig.no_env Rig.no_stoi Rig.port_taken Rig.constructed =
    Some (InitState Rig.constructed,
          [gzerr (failed_to_bind_aborting_plugin 9002);
           Advertise_cmd; SetPaused; StartLoopThread]).
Proof.
  assert (H1 : LoadVars Rig.no_env Rig.no_stoi Rig.port_taken Rig.constructed =
               Some (Rig.constructed, [gzerr (failed_to_bind_aborting_plugin 9002)]))
    by reflexivity.
  split; [exact H1|].
  exact (proj1 (Load_starts_the_loop_thread_after_LoadVars_fails
                  Rig.no_env Rig.no_stoi Rig.port_taken
                  Rig.constructed Rig.constructed _ H1)).
Defined.

(** The same rejected datagram on an idle rig with no actuator: the turn runs
    the whole [STEP] branch and answers. *)
Example rejected_datagram_gets_a_reply :
  trace (final (LoopThread_turn Rig.exact Rig.decoder 1 (Some ([xff], Rig.agent))
                  {| plugin := InitState Rig.constructed;
                     world := {| SimTime := 0; feed := [] |}; trace := [] |})) =
  [Armed 0; Publish []; Step 1; AwaitSensors;
   sendto (set_sim_time 1 (state (InitState Rig.constructed))) Rig.agent].
Proof. reflexivity. Qed.

(** * Further properties *)

(** ** Strings: link names and the sensor list *)

Lemma String_length_app (a b : string) :
  String.length (a ++ b)%string = (String.length a + String.length b)%nat.
Proof. induction a as [|c a IH]; simpl; [done | by rewrite IH]. Qed.

Lemma substring_all (e : string) : substring 0 (String.length e) e = e.
Proof. induction e as [|c e IH]; simpl; [done | by rewrite IH]. Qed.

Lemma substring_after (pre e : string) :
  substring (String.length pre) (String.length e) (pre ++ e)%string = e.
Proof. induction pre as [|c pre IH]; simpl; [apply substring_all | done]. Qed.

Lemma substring_split (s : string) : ∀ n m,
  (n + m = String.length s)%nat →
  s = (substring 0 n s ++ substring n m s)%string.
Proof.
  induction s as [|c s IH]; intros n m Hlen; simpl in Hlen.
  - assert (n = 0%nat) as -> by lia. assert (m = 0%nat) as -> by lia. done.
  - destruct n as [|n]; simpl.
    + destruct m as [|m]; [lia|]. simpl. f_equal.
      rewrite (IH 0%nat m) at 1 by lia. by destruct s.
    + f_equal. apply IH. lia.
Qed.

(** X1.  [hasEnding] answers true exactly when [fullString] is some prefix
    followed by [ending]; in particular every string has the empty ending and
    no string has an ending longer than itself. *)
Theorem hasEnding_iff_suffix (fullString ending : string) :
  hasEnding fullString ending = true ↔ ∃ pre, fullString = (pre ++ ending)%string.
Proof.
  unfold hasEnding. split.
  - destruct (Nat.leb_spec (String.length ending) (String.length fullString))
      as [Hle|]; [|done].
    intros Heq. apply String.eqb_eq in Heq.
    exists (substring 0 (String.length fullString - String.length ending) fullString).
    pose proof (substring_split fullString
                  (String.length fullString - String.length ending)
                  (String.length ending) ltac:(lia)) as Hsplit.
    by rewrite Heq in Hsplit.
  - intros [pre ->]. rewrite String_length_app.
    destruct (Nat.leb_spec (String.length ending)
                (String.length pre + String.length ending)) as [_|]; [|lia].
    replace (String.length pre + String.length ending - String.length ending)%nat
      with (String.length pre) by lia.
    rewrite substring_after. apply String.eqb_refl.
Qed.

(** X2.  [FindLinkByName] returns the first link, in the order of the model's
    link list, whose name has the wanted ending, and [NULL] exactly when no
    link has it. *)
Theorem FindLinkByName_first_match
    (Link : Type) (GetName : Link → string) (links : list Link) (ending : string) :
  match FindLinkByName Link GetName links ending with
  | Some link =>
      ∃ before after, links = before ++ link :: after ∧
        hasEnding (GetName link) ending = true ∧
        Forall (λ l, hasEnding (GetName l) ending = false) before
  | None => Forall (λ l, hasEnding (GetName l) ending = false) links
  end.
Proof.
  induction links as [|l links IH]; simpl; [constructor|].
  destruct (hasEnding (GetName l) ending) eqn:Hl.
  - by exists [], links.
  - destruct (FindLinkByName Link GetName links ending) as [link|].
    + destruct IH as (before & after & -> & Hlink & Hbefore).
      exists (l :: before), after. split; [done|]. split; [done|].
      by apply Forall_cons_2.
    + by apply Forall_cons_2.
Qed.

Lemma split_not_nil (s : string) : split s ≠ [].
Proof.
  destruct s as [|c s]; simpl; [done|].
  destruct (Ascii.eqb c ","); [done|]. by destruct (split s).
Qed.

Lemma split_token_then_comma (tok rest : string) :
  has_comma tok = false →
  split (tok ++ String "," rest) = tok :: split rest.
Proof.
  induction tok as [|c tok IH]; simpl; [done|].
  destruct (Ascii.eqb c ","); [done|]. simpl. intros Htok. by rewrite IH.
Qed.

Lemma split_single_token (tok : string) :
  has_comma tok = false → split tok = [tok].
Proof.
  induction tok as [|c tok IH]; simpl; [done|].
  destruct (Ascii.eqb c ","); [done|]. simpl. intros Htok. by rewrite IH.
Qed.

Lemma split_aux (s : string) :
  join (split s) = s ∧
  Forall (λ tok, has_comma tok = false) (split s) ∧
  length (split s) = S (commas s).
Proof.
  induction s as [|c s (Hjoin & Htoks & Hlen)]; simpl.
  - split; [done|]. split; [by repeat constructor | done].
  - pose proof (split_not_nil s) as Hne.
    destruct (Ascii.eqb c ",") eqn:Hc.
    + apply Ascii.eqb_eq in Hc as ->. split; [|split].
      * destruct (split s) as [|tok toks] eqn:Hs; [done|].
        change (join (EmptyString :: tok :: toks))
          with (String "," (join (tok :: toks))). by rewrite Hjoin.
      * by apply Forall_cons_2.
      * simpl. by rewrite Hlen.
    + destruct (split s) as [|tok toks] eqn:Hs; [done|]. split; [|split].
      * rewrite <- Hjoin. by destruct toks.
      * apply Forall_cons in Htoks as [Htok Htoks].
        apply Forall_cons_2; [|done]. simpl. by rewrite Hc, Htok.
      * simpl in *. lia.
Qed.

(** X3.  [boost::split] on commas loses nothing: putting the tokens back
    together with commas gives the string again; no token contains a comma;
    and there is one more token than there are commas, so the empty string
    yields one empty token and splitting twice changes nothing more. *)
Theorem split_keeps_the_string (s : string) :
  join (split s) = s ∧
  Forall (λ tok, has_comma tok = false) (split s) ∧
  length (split s) = S (commas s) ∧
  Forall (λ tok, split tok = [tok]) (split s).
Proof.
  destruct (split_aux s) as (Hjoin & Htoks & Hlen).
  split; [done|]. split; [done|]. split; [done|].
  eapply Forall_impl; [exact Htoks|]. intros tok. apply split_single_token.
Qed.

Lemma split_join (tokens : list string) :
  tokens ≠ [] →
  Forall (λ tok, has_comma tok = false) tokens →
  split (join tokens) = tokens.
Proof.
  induction tokens as [|tok toks IH]; [done|]. intros _ Htoks.
  apply Forall_cons in Htoks as [Htok Htoks].
  destruct toks as [|tok' toks]; [by apply split_single_token|].
  change (join (tok :: tok' :: toks))
    with (tok ++ String "," (join (tok' :: toks)))%string.
  rewrite split_token_then_comma by done. f_equal. by apply IH.
Qed.

(** X4.  Conversely, a non-empty list of comma-free tokens written with
    commas between them is split into exactly those tokens, empty ones
    included, and into as many. *)
Theorem split_of_joined_tokens (tokens : list string) :
  tokens ≠ [] →
  Forall (λ tok, has_comma tok = false) tokens →
  split (join tokens) = tokens ∧
  commas (join tokens) = pred (length tokens).
Proof.
  intros Hne Htoks. pose proof (split_join tokens Hne Htoks) as Hsplit.
  split; [done|].
  destruct (split_aux (join tokens)) as (_ & _ & Hlen).
  rewrite Hsplit in Hlen. lia.
Qed.

Lemma iequals_upper (a b : string) :
  iequals a b = true ↔ upper a = upper b.
Proof.
  revert b. induction a as [|c a IH]; intros [|d b]; simpl; try done.
  rewrite andb_true_iff, Ascii.eqb_eq, IH. split.
  - by intros [-> ->].
  - by intros [= -> ->].
Qed.




Lemma sensor_of_token_spec (tok : string) :
  (if iequals tok "imu" then [IMU] else if iequals tok "esc" then [ESC] else [])
  = option_list (sensor_of_token tok).
Proof.
  unfold sensor_of_token.
  destruct (iequals tok "imu") eqn:Himu.
  - apply iequals_upper in Himu. rewrite Himu. done.
  - destruct (String.eqb (upper tok) "IMU") eqn:Hu.
    { apply String.eqb_eq in Hu.
      assert (iequals tok "imu" = true) by (by apply iequals_upper).
      congruence. }
    destruct (iequals tok "esc") eqn:Hesc.
    + apply iequals_upper in Hesc. rewrite Hesc. done.
    + destruct (String.eqb (upper tok) "ESC") eqn:Hu'; [|done].
      apply String.eqb_eq in Hu'.
      assert (iequals tok "esc" = true) by (by apply iequals_upper).
      congruence.
Qed.

Lemma flat_map_sensors (tokens : list string) :
  flat_map (λ s, if iequals s "imu" then [IMU]
                 else if iequals s "esc" then [ESC] else []) tokens
  = omap sensor_of_token tokens.
Proof.
  induction tokens as [|tok toks IH]; simpl; [done|].
  rewrite IH, sensor_of_token_spec. by destruct (sensor_of_token tok).
Qed.

(** ** Configuration *)

Section ConfigFacts.

Variable getenv : EnvVar → option string.
Variable stoi : string → option Z.
Variable bind : Z → bool.

(** The port [LoadVars] binds: the variable's value, or 9002. *)
Let port_read : option Z :=
  match getenv ENV_SITL_PORT with
  | Some env_p => stoi env_p
  | None => Some 9002
  end.

Lemma LoadVars_cases p p' log :
  LoadVars getenv stoi bind p = Some (p', log) →
  ∃ port, port_read = Some port ∧
    ((Bind bind "127.0.0.1" port = false ∧ p' = p ∧
      log = [gzerr (failed_to_bind_aborting_plugin port)]) ∨
     (Bind bind "127.0.0.1" port = true ∧
      ((getenv ENV_DIGITAL_TWIN_SDF = None ∧ p' = p ∧
        log = [gzerr could_not_load_digital_twin]) ∨
       ∃ sdf, getenv ENV_DIGITAL_TWIN_SDF = Some sdf ∧
         ((getenv ENV_NUM_MOTORS = None ∧ p' = with_digitalTwinSDF p sdf ∧
           log = [gzerr num_motors_not_set]) ∨
          ∃ motors n, getenv ENV_NUM_MOTORS = Some motors ∧
            stoi motors = Some (Z.of_nat n) ∧
            ((getenv ENV_SUPPORTED_SENSORS = None ∧
              p' = with_numActuators (with_digitalTwinSDF p sdf) n ∧
              log = [gzerr supported_sensors_not_set]) ∨
             ∃ sensors, getenv ENV_SUPPORTED_SENSORS = Some sensors ∧
               p' = with_supportedSensors
                      (with_numActuators (with_digitalTwinSDF p sdf) n)
                      (supportedSensors p ++ omap sensor_of_token (split sensors)) ∧
               log = []))))).
Proof.
  unfold LoadVars. fold port_read.
  destruct port_read as [port|]; [|done]. simpl. intros H. exists port.
  split; [done|].
  destruct (Bind bind "127.0.0.1" port) eqn:Hbind; simpl in H;
    [|left; by simplify_eq].
  right. split; [done|].
  destruct (getenv ENV_DIGITAL_TWIN_SDF) as [sdf|] eqn:Hsdf;
    [|left; by simplify_eq].
  right. exists sdf. split; [done|].
  destruct (getenv ENV_NUM_MOTORS) as [motors|] eqn:Hmotors;
    [|left; by simplify_eq].
  right. destruct (stoi motors) as [n|] eqn:Hn; [|done]. simpl in H.
  destruct (decide (0 ≤ n)) as [Hpos|]; [|done].
  exists motors, (Z.to_nat n). rewrite Z2Nat.id by done. split; [done|].
  split; [done|].
  destruct (getenv ENV_SUPPORTED_SENSORS) as [sensors|] eqn:Hsensors;
    [|left; by simplify_eq].
  right. exists sensors. split; [done|]. rewrite flat_map_sensors in H.
  by simplify_eq.
Qed.

End ConfigFacts.

(** X6.  [LoadVars] stops at the first thing that is wrong, in the order
    bind, model path, actuator count, sensor list.  Whenever it returns, it
    has logged nothing or exactly one diagnostic; it has logged nothing
    exactly when the bind succeeded and the three variables are set; and
    after a diagnostic the sensor list of the plugin is as it was, while the
    settings read before the failing one are already stored.  The callback
    counters and the sensor state are never touched. *)
Theorem LoadVars_logs_once_and_keeps_the_sensor_list
    getenv stoi bind (p p' : Plugin) (log : list Boot) :
  LoadVars getenv stoi bind p = Some (p', log) →
  (log = [] ∨ ∃ d, log = [gzerr d]) ∧
  (log = [] →
     is_Some (getenv ENV_DIGITAL_TWIN_SDF) ∧ is_Some (getenv ENV_NUM_MOTORS) ∧
     is_Some (getenv ENV_SUPPORTED_SENSORS) ∧
     getenv ENV_DIGITAL_TWIN_SDF = Some (digitalTwinSDF p')) ∧
  (log ≠ [] → supportedSensors p' = supportedSensors p) ∧
  (log = [gzerr num_motors_not_set] →
     getenv ENV_DIGITAL_TWIN_SDF = Some (digitalTwinSDF p') ∧
     numActuators p' = numActuators p) ∧
  (log = [gzerr supported_sensors_not_set] →
     ∃ motors, getenv ENV_NUM_MOTORS = Some motors ∧
               stoi motors = Some (Z.of_nat (numActuators p'))) ∧
  numSensorCallbacks p' = numSensorCallbacks p ∧
  sensorCallbackCount p' = sensorCallbackCount p ∧
  state p' = state p.
Proof.
  intros H. apply LoadVars_cases in H as (port & _ & H).
  destruct H as [(_ & -> & ->)|(_ & [(_ & -> & ->)|(sdf & Hsdf &
    [(_ & -> & ->)|(motors & n & Hm & Hn &
      [(_ & -> & ->)|(sensors & Hs & -> & ->)])])])];
    simpl; repeat split; try done; eauto.
Qed.

(** X7.  With the bind succeeding and the three variables set, [LoadVars]
    appends to the sensor list, in order, the sensor named by each token of
    the comma-separated value: tokens are compared without regard to case,
    tokens that name no sensor (the empty one included) are skipped, and a
    sensor named twice is recorded twice. *)
Theorem LoadVars_reads_the_sensor_list
    getenv stoi bind (p : Plugin) (sdf motors : string) (n : nat)
    (tokens : list string) :
  getenv ENV_SITL_PORT = None →
  bind 9002 = true →
  getenv ENV_DIGITAL_TWIN_SDF = Some sdf →
  getenv ENV_NUM_MOTORS = Some motors →
  stoi motors = Some (Z.of_nat n) →
  tokens ≠ [] →
  Forall (λ tok, has_comma tok = false) tokens →
  getenv ENV_SUPPORTED_SENSORS = Some (join tokens) →
  LoadVars getenv stoi bind p =
  Some (with_supportedSensors (with_numActuators (with_digitalTwinSDF p sdf) n)
          (supportedSensors p ++ omap sensor_of_token tokens), []).
Proof.
  intros Hport Hbind Hsdf Hmotors Hn Hne Htoks Hsensors.
  unfold LoadVars, Bind. rewrite Hport. simpl.
  change (9002 mod 65536) with 9002. rewrite Hbind, Hsdf, Hmotors, Hn. simpl.
  rewrite decide_True by lia. rewrite Hsensors, Nat2Z.id.
  by rewrite flat_map_sensors, split_join.
Qed.

Lemma subscribe_all_length (p : Plugin) :
  Z.of_nat (length (subscribe_all p)) =
  Z.of_nat (length (filter (λ x, x = IMU) (supportedSensors p)))
  + Z.of_nat (numActuators p)
    * Z.of_nat (length (filter (λ x, x = ESC) (supportedSensors p))).
Proof.
  unfold subscribe_all.
  induction (supportedSensors p) as [|[] l IH]; [simpl; lia|..];
    cbn [flat_map]; rewrite length_app.
  - rewrite (filter_cons_True (λ x, x = IMU)),
      (filter_cons_False (λ x, x = ESC)) by done.
    simpl length. lia.
  - rewrite (filter_cons_True (λ x, x = ESC)),
      (filter_cons_False (λ x, x = IMU)) by done.
    rewrite length_fmap, length_seq. simpl length. lia.
Qed.

(** X8.  Whatever the sensor list holds, repeated entries included, [Load]
    makes as many subscriptions as [CalculateCallbackCount] adds to the
    callback budget: one per IMU entry and one per actuator for each ESC
    entry.  [CalculateCallbackCount] changes nothing but the budget. *)
Theorem subscriptions_match_the_callback_budget (p : Plugin) :
  numSensorCallbacks (CalculateCallbackCount p) =
    numSensorCallbacks p + Z.of_nat (length (subscribe_all (CalculateCallbackCount p))) ∧
  Z.of_nat (length (subscribe_all p)) =
    Z.of_nat (length (filter (λ x, x = IMU) (supportedSensors p)))
    + Z.of_nat (numActuators p)
      * Z.of_nat (length (filter (λ x, x = ESC) (supportedSensors p))) ∧
  subscribe_all (CalculateCallbackCount p) = subscribe_all p ∧
  numActuators (CalculateCallbackCount p) = numActuators p ∧
  supportedSensors (CalculateCallbackCount p) = supportedSensors p ∧
  state (CalculateCallbackCount p) = state p.
Proof.
  split; [|by split; [apply subscribe_all_length|]].
  change (subscribe_all (CalculateCallbackCount p)) with (subscribe_all p).
  rewrite subscribe_all_length. unfold CalculateCallbackCount. simpl.
  rewrite CalculateCallbackCount_fold. lia.
Qed.

(** X9.  When [LoadVars] has failed on a plugin that has no sensor on record,
    [Load] subscribes to nothing and leaves the callback budget as it was:
    its actions are the diagnostic followed by advertising the command topic,
    pausing the world and starting the loop thread, and the sensor state is
    seeded all the same. *)
Theorem Load_after_failed_LoadVars_subscribes_to_nothing
    getenv stoi bind (p p' : Plugin) (d : Diagnostic) :
  supportedSensors p = [] →
  state p = State_new →
  LoadVars getenv stoi bind p = Some (p', [gzerr d]) →
  ∃ p'', Load getenv stoi bind p =
           Some (p'', [gzerr d; Advertise_cmd; SetPaused; StartLoopThread]) ∧
    supportedSensors p'' = [] ∧
    numSensorCallbacks p'' = numSensorCallbacks p ∧
    imu_sized p'' ∧ esc_sized p''.
Proof.
  intros Hnone Hnew Hvars.
  pose proof (LoadVars_cases getenv stoi bind p p' _ Hvars) as (port & _ & Hcases).
  assert (Hp' : supportedSensors p' = [] ∧ state p' = State_new ∧
                numSensorCallbacks p' = numSensorCallbacks p).
  { destruct Hcases as [(_ & -> & _)|(_ & [(_ & -> & _)|(sdf & _ &
      [(_ & -> & _)|(motors & n & _ & _ &
        [(_ & -> & _)|(sensors & _ & _ & ?)])])])]; done. }
  destruct Hp' as (Hs & Hst & Hn).
  exists (InitState (CalculateCallbackCount p')). split.
  - unfold Load. rewrite Hvars. simpl. unfold subscribe_all. simpl.
    by rewrite Hs.
  - simpl. split; [done|]. split.
    { rewrite Hs. simpl. done. }
    split; [by apply InitState_imu_sized | by apply InitState_esc_sized].
Qed.

(** X10.  A fully configured [Load] on a freshly constructed plugin (empty
    sensor list, zero budget, fresh state message) logs no diagnostic, makes
    exactly as many subscriptions as the budget it computes, and hands the
    loop thread a store whose IMU arrays have 3, 4 and 3 entries and whose
    ESC arrays have one entry per actuator. *)
Theorem Load_of_a_full_configuration
    getenv stoi bind (p p' : Plugin) :
  supportedSensors p = [] →
  numSensorCallbacks p = 0 →
  state p = State_new →
  LoadVars getenv stoi bind p = Some (p', []) →
  Load getenv stoi bind p = Some (InitState (CalculateCallbackCount p'),
                                  subscribe_all p' ++
                                  [Advertise_cmd; SetPaused; StartLoopThread]) ∧
  numSensorCallbacks (InitState (CalculateCallbackCount p')) =
    Z.of_nat (length (subscribe_all p')) ∧
  imu_sized (InitState (CalculateCallbackCount p')) ∧
  esc_sized (InitState (CalculateCallbackCount p')).
Proof.
  intros Hnone Hzero Hnew Hvars.
  pose proof (LoadVars_cases getenv stoi bind p p' _ Hvars) as (port & _ & Hcases).
  assert (Hp' : state p' = State_new ∧ numSensorCallbacks p' = 0).
  { destruct Hcases as [(_ & _ & ?)|(_ & [(_ & _ & ?)|(sdf & _ &
      [(_ & _ & ?)|(motors & n & _ & _ &
        [(_ & _ & ?)|(sensors & _ & -> & _)])])])]; done. }
  destruct Hp' as (Hst & Hn). split; [|split; [|split]].
  - unfold Load. by rewrite Hvars.
  - simpl. rewrite CalculateCallbackCount_fold, subscribe_all_length, Hn. lia.
  - by apply InitState_imu_sized.
  - by apply InitState_esc_sized.
Qed.

(** ** The store under callbacks *)

Section StoreInvariants.

Variable narrow : float → float.

Lemma ImuCallback_sized_inv p m p' :
  imu_sized p → ImuCallback narrow p m = Some p' →
  p' = with_sensorCallbackCount
         (with_state p
            {| sim_time := sim_time (state p);
               status_code := status_code (state p);
               imu_angular_velocity_rpy := (imu_arrays narrow m).1.1;
               imu_orientation_quat := (imu_arrays narrow m).1.2;
               imu_linear_acceleration_xyz := (imu_arrays narrow m).2;
               esc_motor_angular_velocity := esc_motor_angular_velocity (state p);
               esc_temperature := esc_temperature (state p);
               esc_current := esc_current (state p);
               esc_voltage := esc_voltage (state p) |})
         (sensorCallbackCount p + 1).
Proof.
  intros (H1 & H2 & H3).
  unfold ImuCallback, set_imu_angular_velocity_rpy, set_imu_orientation_quat,
    set_imu_linear_acceleration_xyz.
  repeat (rewrite set_at_Some by (rewrite ?length_insert; simpl; lia); simpl).
  intros [= <-].
  destruct (imu_angular_velocity_rpy (state p)) as [|a1 [|a2 [|a3 [|]]]];
    try discriminate H1.
  destruct (imu_orientation_quat (state p)) as [|q1 [|q2 [|q3 [|q4 [|]]]]];
    try discriminate H2.
  destruct (imu_linear_acceleration_xyz (state p)) as [|l1 [|l2 [|l3 [|]]]];
    try discriminate H3.
  reflexivity.
Qed.

Lemma run_callback_sized p cb p' :
  esc_sized p → imu_sized p → run_callback narrow p cb = Some p' →
  esc_sized p' ∧ imu_sized p' ∧ numActuators p' = numActuators p.
Proof.
  intros Hesc Himu Hrun. destruct cb as [m|m]; simpl in Hrun.
  - apply EscSensorCallback_inv in Hrun as (_ & _ & _ & _ & ->).
    destruct Hesc as (? & ? & ? & ?).
    unfold esc_sized, imu_sized. simpl. by rewrite !length_insert.
  - apply ImuCallback_sized_inv in Hrun as ->; [|done]. done.
Qed.

Lemma run_callback_defined p cb :
  esc_sized p → imu_sized p →
  (is_Some (run_callback narrow p cb) ↔ in_range p cb).
Proof.
  intros (H1 & H2 & H3 & H4) Himu. destruct cb as [m|m]; simpl.
  - split.
    + intros [p' Hp']. apply EscSensorCallback_inv in Hp' as (? & _). lia.
    + intros Hid. apply EscSensorCallback_in_range; lia.
  - split; [done|]. intros _. by apply ImuCallback_in_range.
Qed.

Lemma run_callbacks_sized cbs : ∀ p p',
  esc_sized p → imu_sized p → run_callbacks narrow p cbs = Some p' →
  esc_sized p' ∧ imu_sized p' ∧ numActuators p' = numActuators p.
Proof.
  induction cbs as [|cb cbs IH]; simpl; intros p p' Hesc Himu Hrun.
  - by simplify_eq.
  - destruct (run_callback narrow p cb) as [q|] eqn:Hq; [|done]. simpl in Hrun.
    apply run_callback_sized in Hq as (? & ? & Hn); [|done..].
    apply IH in Hrun as (? & ? & ?); [|done..].
    split; [done|]. split; [done|]. congruence.
Qed.

Lemma run_callbacks_defined cbs : ∀ p,
  esc_sized p → imu_sized p →
  (is_Some (run_callbacks narrow p cbs) ↔ Forall (in_range p) cbs).
Proof.
  induction cbs as [|cb cbs IH]; simpl; intros p Hesc Himu.
  - split; [constructor | eauto].
  - rewrite Forall_cons, <- (run_callback_defined p cb) by done.
    destruct (run_callback narrow p cb) as [q|] eqn:Hq; simpl.
    + pose proof (run_callback_sized _ _ _ Hesc Himu Hq) as (? & ? & Hn).
      rewrite IH by done.
      assert (Hiff : Forall (in_range q) cbs ↔ Forall (in_range p) cbs).
      { apply Forall_iff. intros [m|m]; simpl; [by rewrite Hn | done]. }
      rewrite Hiff. split; [by split; [eauto|] | by intros [_ ?]].
    + split; [by intros [? ?] | by intros [[? ?] _]].
Qed.

End StoreInvariants.

(** X11.  On a store with the sizes [InitState] gives it, a batch of
    callbacks runs through without an out-of-range write exactly when every
    ESC message in it has an index below the actuator count.  When it does,
    the sizes are as before, no session member has changed, and the callback
    count has gone up by the number of callbacks, whatever their kind. *)
Theorem callbacks_keep_the_store_sized narrow (p : Plugin) (cbs : list Callback) :
  esc_sized p → imu_sized p →
  (is_Some (run_callbacks narrow p cbs) ↔ Forall (in_range p) cbs) ∧
  ∀ p', run_callbacks narrow p cbs = Some p' →
    esc_sized p' ∧ imu_sized p' ∧ same_session p p' ∧
    sensorCallbackCount p' = sensorCallbackCount p + Z.of_nat (length cbs).
Proof.
  intros Hesc Himu. split; [by apply run_callbacks_defined|].
  intros p' Hrun.
  pose proof (run_callbacks_sized narrow cbs p p' Hesc Himu Hrun) as (? & ? & _).
  split; [done|]. split; [done|]. split.
  - by eapply run_callbacks_session.
  - by eapply run_callbacks_count.
Qed.

(** X12.  On a store with three, four and three IMU entries, [ImuCallback]
    replaces the whole content of the three IMU arrays by the values of the
    message, so nothing of an earlier IMU message survives a later one; it
    leaves the four ESC arrays, the time and the status alone and adds one to
    the callback count. *)
Theorem ImuCallback_overwrites_the_imu_arrays narrow (p : Plugin) (m : Imu) :
  imu_sized p →
  ∃ p', ImuCallback narrow p m = Some p' ∧
    (imu_angular_velocity_rpy (state p'), imu_orientation_quat (state p'),
     imu_linear_acceleration_xyz (state p')) = imu_arrays narrow m ∧
    esc_motor_angular_velocity (state p') = esc_motor_angular_velocity (state p) ∧
    esc_temperature (state p') = esc_temperature (state p) ∧
    esc_current (state p') = esc_current (state p) ∧
    esc_voltage (state p') = esc_voltage (state p) ∧
    sim_time (state p') = sim_time (state p) ∧
    status_code (state p') = status_code (state p) ∧
    sensorCallbackCount p' = sensorCallbackCount p + 1 ∧
    imu_sized p' ∧
    ∀ m0 p0, ImuCallback narrow p m0 = Some p0 →
      state <$> ImuCallback narrow p0 m = Some (state p').
Proof.
  intros Himu.
  destruct (ImuCallback_in_range narrow p m Himu) as [p' Hp'].
  exists p'. split; [done|].
  pose proof (ImuCallback_sized_inv narrow p m p' Himu Hp') as ->. simpl.
  repeat match goal with |- _ ∧ _ => split end; try done.
  intros m0 p0 Hp0.
  pose proof (ImuCallback_sized_inv narrow p m0 p0 Himu Hp0) as ->.
  assert (Himu0 : imu_sized
    (with_sensorCallbackCount
       (with_state p
          {| sim_time := sim_time (state p);
             status_code := status_code (state p);
             imu_angular_velocity_rpy := (imu_arrays narrow m0).1.1;
             imu_orientation_quat := (imu_arrays narrow m0).1.2;
             imu_linear_acceleration_xyz := (imu_arrays narrow m0).2;
             esc_motor_angular_velocity := esc_motor_angular_velocity (state p);
             esc_temperature := esc_temperature (state p);
             esc_current := esc_current (state p);
             esc_voltage := esc_voltage (state p) |})
       (sensorCallbackCount p + 1))) by done.
  destruct (ImuCallback_in_range narrow _ m Himu0) as [p1 Hp1].
  rewrite Hp1. simpl. f_equal.
  by apply ImuCallback_sized_inv in Hp1 as ->.
Qed.

Section Commutation.

Variable narrow : float → float.

Lemma run_callback_undefined_later p a b q :
  esc_sized p → imu_sized p →
  run_callback narrow p a = None → run_callback narrow p b = Some q →
  run_callback narrow q a = None.
Proof.
  intros Hesc Himu Ha Hb.
  pose proof (run_callback_sized narrow p b q Hesc Himu Hb) as (Hesc' & Himu' & Hn).
  destruct (run_callback narrow q a) as [x|] eqn:Hx; [|done].
  assert (Hin : in_range q a) by (apply (run_callback_defined narrow); eauto).
  assert (Hin' : in_range p a).
  { destruct a as [m|m]; simpl in *; [by rewrite <- Hn | done]. }
  apply (run_callback_defined narrow p a Hesc Himu) in Hin' as [? ?]. congruence.
Qed.

(** Two callbacks on different channels can run in either order. *)
Lemma run_callback_comm p a b :
  esc_sized p → imu_sized p → channel a ≠ channel b →
  (q ← run_callback narrow p a; run_callback narrow q b) =
  (q ← run_callback narrow p b; run_callback narrow q a).
Proof.
  intros Hesc Himu Hch.
  destruct (run_callback narrow p a) as [qa|] eqn:Ha,
           (run_callback narrow p b) as [qb|] eqn:Hb; simpl; [| | |done].
  2:{ by eapply run_callback_undefined_later. }
  2:{ symmetry. by eapply run_callback_undefined_later. }
  pose proof (run_callback_sized narrow p a qa Hesc Himu Ha) as (Hesca & Himua & Hna).
  pose proof (run_callback_sized narrow p b qb Hesc Himu Hb) as (Hescb & Himub & Hnb).
  assert (Hina : in_range p a) by (apply (run_callback_defined narrow); eauto).
  assert (Hinb : in_range p b) by (apply (run_callback_defined narrow); eauto).
  assert (Hb' : is_Some (run_callback narrow qa b)).
  { apply run_callback_defined; [done..|].
    destruct b; simpl in *; [by rewrite Hna | done]. }
  assert (Ha' : is_Some (run_callback narrow qb a)).
  { apply run_callback_defined; [done..|].
    destruct a; simpl in *; [by rewrite Hnb | done]. }
  destruct Hb' as [x Hx], Ha' as [y Hy]. rewrite Hx, Hy. f_equal.
  destruct a as [ma|ma], b as [mb|mb]; simpl in *.
  - apply EscSensorCallback_inv in Ha as (_ & _ & _ & _ & ->).
    apply EscSensorCallback_inv in Hb as (_ & _ & _ & _ & ->).
    apply EscSensorCallback_inv in Hx as (_ & _ & _ & _ & ->).
    apply EscSensorCallback_inv in Hy as (_ & _ & _ & _ & ->).
    simpl. assert (id ma ≠ id mb) by congruence.
    unfold with_sensorCallbackCount, with_state. simpl.
    f_equal. f_equal; by apply list_insert_insert_ne.
  - apply EscSensorCallback_inv in Ha as (_ & _ & _ & _ & ->).
    apply ImuCallback_sized_inv in Hb as ->; [|done].
    apply ImuCallback_sized_inv in Hx as ->; [|done].
    apply EscSensorCallback_inv in Hy as (_ & _ & _ & _ & ->).
    reflexivity.
  - apply ImuCallback_sized_inv in Ha as ->; [|done].
    apply EscSensorCallback_inv in Hb as (_ & _ & _ & _ & ->).
    apply EscSensorCallback_inv in Hx as (_ & _ & _ & _ & ->).
    apply ImuCallback_sized_inv in Hy as ->; [|done].
    reflexivity.
  - done.
Qed.

End Commutation.

(** X13.  The store after a batch of callbacks does not depend on the order
    in which they arrive, provided the batch holds at most one IMU message
    and no two ESC messages with the same index: any two arrival orders of
    the same messages leave the same store and the same callback count, or
    both run out of range. *)
Theorem callbacks_of_a_tick_commute
    narrow (p : Plugin) (cbs cbs' : list Callback) :
  esc_sized p → imu_sized p →
  NoDup (channel <$> cbs) →
  cbs ≡ₚ cbs' →
  run_callbacks narrow p cbs = run_callbacks narrow p cbs'.
Proof.
  intros Hesc Himu Hnd Hperm. revert p Hesc Himu Hnd.
  induction Hperm as [|x l l' Hperm IH|x y l|l l' l'' H1 IH1 H2 IH2];
    intros p Hesc Himu Hnd.
  - done.
  - simpl. destruct (run_callback narrow p x) as [q|] eqn:Hq; simpl; [|done].
    pose proof (run_callback_sized narrow p x q Hesc Himu Hq) as (? & ? & _).
    apply IH; [done..|]. by apply NoDup_cons in Hnd as [_ ?].
  - simpl in *. apply NoDup_cons in Hnd as [Hy _].
    assert (Hch : channel x ≠ channel y).
    { intros Heq. apply Hy. rewrite Heq. apply list_elem_of_here. }
    pose proof (run_callback_comm narrow p x y Hesc Himu Hch) as Hcomm.
    destruct (run_callback narrow p x) as [qx|],
             (run_callback narrow p y) as [qy|]; simpl in *.
    + by rewrite Hcomm.
    + by rewrite Hcomm.
    + by rewrite <- Hcomm.
    + done.
  - rewrite IH1 by done. apply IH2; [done..|]. by rewrite <- H1.
Qed.

(** ** Turns of the loop thread *)

Section TurnFacts.

Variable narrow : float → float.
Variable ParseFromString : list byte → Action * bool.
Variable fuel : nat.

(** The state part of the store after a callback depends on the state part
    before it only. *)
Lemma run_callback_state p1 p2 cb :
  state p1 = state p2 →
  state <$> run_callback narrow p1 cb = state <$> run_callback narrow p2 cb.
Proof.
  intros Hst. destruct cb as [m|m]; simpl.
  - unfold EscSensorCallback, set_esc_motor_angular_velocity,
      set_esc_temperature, set_esc_current, set_esc_voltage. rewrite Hst.
    repeat (match goal with |- context [set_at ?l ?i ?v] =>
              destruct (set_at l i v); simpl; [|done] end).
    done.
  - unfold ImuCallback, set_imu_angular_velocity_rpy, set_imu_orientation_quat,
      set_imu_linear_acceleration_xyz. rewrite Hst.
    repeat (match goal with |- context [set_at ?l ?i ?v] =>
              destruct (set_at l i v); simpl; [|done] end).
    done.
Qed.

Lemma run_callbacks_state cbs : ∀ p1 p2,
  state p1 = state p2 →
  state <$> run_callbacks narrow p1 cbs = state <$> run_callbacks narrow p2 cbs.
Proof.
  induction cbs as [|cb cbs IH]; intros p1 p2 Hst; simpl; [by rewrite Hst|].
  pose proof (run_callback_state p1 p2 cb Hst) as Hcb.
  destruct (run_callback narrow p1 cb) as [q1|],
           (run_callback narrow p2 cb) as [q2|]; simpl in *; try done.
  apply IH. congruence.
Qed.

(** What a turn that was handed a datagram leaves in the trace: when it
    comes back, events that send nothing followed by the sending of the
    state the plugin now holds; when it does not, events that send nothing. *)
Lemma LoopThread_turn_sends buf from s :
  match LoopThread_turn narrow ParseFromString fuel (Some (buf, from)) s with
  | Done _ s' =>
      ∃ evs, trace s' = trace s ++ evs ++ [sendto (state (plugin s')) from] ∧
             filter is_sendto evs = []
  | Halted _ s' =>
      ∃ evs, trace s' = trace s ++ evs ∧ filter is_sendto evs = []
  end.
Proof.
  destruct (world_control (fst (ParseFromString (take 1024 buf)))) eqn:Hwc.
  - rewrite STEP_turn_unfold by done.
    destruct (add_motors _ _ _ _) as [cmd|]; simpl; [|by eexists].
    rewrite world_Step_1_spec. simpl.
    match goal with |- context [deliver narrow ?cbs ?s0] =>
      pose proof (deliver_spec narrow cbs s0) as Hd end.
    simpl in Hd.
    destruct (run_callbacks narrow _ _) as [q|] eqn:Hq.
    + rewrite Hd, WaitForSensorsThenSend_spec. simpl.
      apply run_callbacks_session in Hq as (_ & _ & _ & _ & Hq). simpl in Hq.
      rewrite Hq.
      destruct (sensorCallbackCount q <? 0); simpl.
      * rewrite <- !app_assoc. by eexists.
      * exists [Armed (-1 * numSensorCallbacks (plugin s)); Publish cmd;
                Step 1; AwaitSensors].
        by rewrite <- !app_assoc.
    + destruct Hd as (q & -> & _). simpl. rewrite <- !app_assoc. by eexists.
  - rewrite RESET_turn_unfold by done. rewrite FlushSensors_unfold.
    match goal with |- context [FlushSensors_loop narrow fuel ?s1] =>
      destruct (FlushSensors_loop_events narrow fuel s1)
        as (evs & Htr & Hevs & (_ & _ & _ & _ & Hfrom));
      destruct (FlushSensors_loop narrow fuel s1) as [[] s2|h s2]
    end; simpl in *.
    + exists (SoftReset_done :: evs). rewrite Htr, Hfrom, <- !app_assoc.
      split; [done|]. rewrite filter_cons_False by (by intros ?).
      by apply settle_events_no_sendto.
    + exists (SoftReset_done :: evs). rewrite Htr, <- !app_assoc.
      split; [done|]. rewrite filter_cons_False by (by intros ?).
      by apply settle_events_no_sendto.
Qed.

Lemma LoopThread_cons d ds s :
  LoopThread narrow ParseFromString fuel (d :: ds) s =
  match LoopThread_turn narrow ParseFromString fuel d s with
  | Done _ s' => LoopThread narrow ParseFromString fuel ds s'
  | Halted h s' => Halted h s'
  end.
Proof. done. Qed.

Lemma LoopThread_turn_None s :
  LoopThread_turn narrow ParseFromString fuel None s = Done tt s.
Proof. by destruct s. Qed.

End TurnFacts.

Lemma no_sendto_sends_sized n evs :
  filter is_sendto evs = [] → Forall (sends_sized n) evs.
Proof.
  induction evs as [|e evs IH]; [constructor|].
  destruct e; simpl; try (rewrite filter_cons_False by (by intros ?); intros H;
    apply Forall_cons_2; [by intros ?? [=] | by apply IH]).
  by rewrite filter_cons_True.
Qed.

Lemma store_after_sized narrow k : ∀ p fd p',
  esc_sized p → imu_sized p → store_after narrow k p fd = Some p' →
  esc_sized p' ∧ imu_sized p' ∧ numActuators p' = numActuators p.
Proof.
  induction k as [|k IH]; simpl; intros p fd p' Hesc Himu Hrun.
  - by simplify_eq.
  - destruct (run_callbacks narrow p (hd [] fd)) as [q|] eqn:Hq; [|done].
    simpl in Hrun.
    apply run_callbacks_sized in Hq as (? & ? & Hn); [|done..].
    apply IH in Hrun as (? & ? & ?); [|done..].
    split; [done|]. split; [done|]. congruence.
Qed.

Section RunFacts.

Variable narrow : float → float.
Variable ParseFromString : list byte → Action * bool.
Variable fuel : nat.

(** A turn that comes back hands on a store of the same sizes. *)
Lemma LoopThread_turn_sized d s s' :
  esc_sized (plugin s) → imu_sized (plugin s) →
  LoopThread_turn narrow ParseFromString fuel d s = Done tt s' →
  esc_sized (plugin s') ∧ imu_sized (plugin s') ∧
  numActuators (plugin s') = numActuators (plugin s).
Proof.
  intros Hesc Himu. destruct d as [[buf from]|].
  2:{ rewrite LoopThread_turn_None. by intros [= <-]. }
  destruct (world_control (fst (ParseFromString (take 1024 buf)))) eqn:Hwc.
  - rewrite STEP_turn_unfold by done.
    destruct (add_motors _ _ _ _) as [cmd|]; [|done].
    rewrite world_Step_1_spec. simpl.
    match goal with |- context [deliver narrow ?cbs ?s0] =>
      pose proof (deliver_spec narrow cbs s0) as Hd end.
    simpl in Hd.
    destruct (run_callbacks narrow _ _) as [q|] eqn:Hq.
    + rewrite Hd, WaitForSensorsThenSend_spec. simpl.
      apply run_callbacks_sized in Hq as (Hesc' & Himu' & Hn); [|done..].
      destruct (sensorCallbackCount q <? 0); [done|]. by intros [= <-].
    + by destruct Hd as (q & -> & _).
  - rewrite RESET_turn_unfold by done. rewrite FlushSensors_unfold.
    match goal with |- context [FlushSensors_loop narrow fuel ?s1] =>
      pose proof (FlushSensors_loop_Done narrow fuel s1) as HDone;
      destruct (FlushSensors_loop narrow fuel s1) as [[] s2|h s2]
    end; [|done].
    destruct (HDone s2 eq_refl) as (M & _ & _ & Hst & _).
    simpl in Hst. apply store_after_sized in Hst as (? & ? & ?); [|done..].
    by intros [= <-].
Qed.

Lemma LoopThread_sends ds : ∀ s,
  let r := LoopThread narrow ParseFromString fuel ds s in
  ∃ evs, trace (final r) = trace s ++ evs ∧
    (outcome r = None →
       length (filter is_sendto evs) = length (filter is_Some ds)) ∧
    (outcome r ≠ None →
       (length (filter is_sendto evs) < length (filter is_Some ds))%nat).
Proof.
  induction ds as [|[[buf from]|] ds IH]; intros s; cbv zeta.
  - exists []. simpl. by rewrite app_nil_r.
  - rewrite LoopThread_cons.
    pose proof (LoopThread_turn_sends narrow ParseFromString fuel buf from s) as Hturn.
    rewrite filter_cons_True by done.
    destruct (LoopThread_turn narrow ParseFromString fuel _ s) as [[] s1|h s1].
    + destruct Hturn as (evs & Htr & Hevs).
      destruct (IH s1) as (evs' & Htr' & Hdone & Hhalt). simpl in Htr', Hdone, Hhalt.
      exists ((evs ++ [sendto (state (plugin s1)) from]) ++ evs').
      rewrite Htr', Htr, <- !app_assoc. split; [done|].
      rewrite !filter_app, Hevs. simpl length.
      split; intros H; [rewrite Hdone by done | specialize (Hhalt H)]; lia.
    + destruct Hturn as (evs & Htr & Hevs). exists evs. simpl.
      split; [done|]. rewrite Hevs. split; [done|]. simpl. lia.
  - rewrite LoopThread_cons, LoopThread_turn_None.
    rewrite filter_cons_False by (by intros [? ?]). apply IH.
Qed.

Lemma LoopThread_sized ds : ∀ s,
  esc_sized (plugin s) → imu_sized (plugin s) →
  ∃ evs, trace (final (LoopThread narrow ParseFromString fuel ds s)) = trace s ++ evs ∧
    Forall (sends_sized (numActuators (plugin s))) evs.
Proof.
  induction ds as [|d ds IH]; intros s Hesc Himu.
  - exists []. simpl. by rewrite app_nil_r.
  - rewrite LoopThread_cons.
    pose proof (LoopThread_turn_sized d s) as Hsized.
    destruct d as [[buf from]|].
    + pose proof (LoopThread_turn_sends narrow ParseFromString fuel buf from s) as Hturn.
      destruct (LoopThread_turn narrow ParseFromString fuel _ s) as [[] s1|h s1].
      * destruct Hturn as (evs & Htr & Hevs).
        destruct (Hsized s1 Hesc Himu eq_refl) as (Hesc1 & Himu1 & Hn).
        destruct (IH s1 Hesc1 Himu1) as (evs' & Htr' & Hevs').
        exists ((evs ++ [sendto (state (plugin s1)) from]) ++ evs').
        rewrite Htr', Htr, <- !app_assoc. split; [done|].
        rewrite app_assoc. apply Forall_app_2; [|by rewrite <- Hn].
        apply Forall_app_2; [by apply no_sendto_sends_sized|].
        apply Forall_cons_2; [|done]. intros st to [= <- _].
        destruct Hesc1 as (? & ? & ? & ?), Himu1 as (? & ? & ?).
        unfold state_sized. rewrite <- Hn. done.
      * destruct Hturn as (evs & Htr & Hevs). exists evs. simpl.
        split; [done|]. by apply no_sendto_sends_sized.
    + rewrite LoopThread_turn_None. by apply IH.
Qed.

End RunFacts.

(** X14.  A run of the loop thread answers every datagram it has finished
    with exactly once and sends nothing else: when the run comes back, the
    number of states sent equals the number of polls that yielded a
    datagram; when it stops inside a turn, the datagram of that turn and the
    later ones are unanswered.  Polls that yield nothing leave no trace: the
    run is the same with them removed. *)
Theorem LoopThread_answers_each_datagram_once
    narrow ParseFromString (fuel : nat)
    (datagrams : list (option (list byte * Addr))) (s : Sys) :
  let r := LoopThread narrow ParseFromString fuel datagrams s in
  LoopThread narrow ParseFromString fuel (filter is_Some datagrams) s = r ∧
  (outcome r = None →
     length (filter is_sendto (added s r)) = length (filter is_Some datagrams)) ∧
  (outcome r ≠ None →
     (length (filter is_sendto (added s r)) < length (filter is_Some datagrams))%nat).
Proof.
  intros r. split.
  - subst r. revert s. induction datagrams as [|[d|] ds IH]; intros s; [done|..].
    + rewrite filter_cons_True by done. rewrite !LoopThread_cons.
      by destruct (LoopThread_turn narrow ParseFromString fuel _ s).
    + rewrite filter_cons_False by (by intros [? ?]).
      rewrite LoopThread_cons, LoopThread_turn_None. apply IH.
  - destruct (LoopThread_sends narrow ParseFromString fuel datagrams s)
      as (evs & Htr & Hdone & Hhalt).
    apply added_app in Htr. fold r in Htr, Hdone, Hhalt. by rewrite Htr.
Qed.

(** X15.  Starting from a store with the sizes [InitState] gives it, every
    state the loop thread sends, in any run and on either branch, has three
    angular-velocity entries, four quaternion entries, three acceleration
    entries and one entry per actuator in each ESC array. *)
Theorem every_state_sent_has_the_configured_sizes
    narrow ParseFromString (fuel : nat)
    (datagrams : list (option (list byte * Addr))) (s : Sys) :
  esc_sized (plugin s) → imu_sized (plugin s) →
  Forall (sends_sized (numActuators (plugin s)))
    (added s (LoopThread narrow ParseFromString fuel datagrams s)).
Proof.
  intros Hesc Himu.
  destruct (LoopThread_sized narrow ParseFromString fuel datagrams s Hesc Himu)
    as (evs & Htr & Hevs).
  apply added_app in Htr. by rewrite Htr.
Qed.

(** X16.  In a [STEP] turn whose action has a motor value for every actuator,
    on a store of the configured sizes and with every ESC index of the tick
    in range, the reply depends on one comparison.  If the tick runs at least
    as many callbacks as the budget, the turn comes back and its last act is
    to send the store as those callbacks left it, stamped [OK] and with the
    time after the tick.  If it runs fewer, the turn sleeps on the barrier
    with the counter still negative and sends nothing. *)
Theorem STEP_turn_replies_iff_the_tick_fills_the_budget
    narrow ParseFromString (fuel : nat) (buf : list byte) (from : Addr) (s : Sys) :
  let a := fst (ParseFromString (take 1024 buf)) in
  let r := LoopThread_turn narrow ParseFromString fuel (Some (buf, from)) s in
  let cbs := hd [] (feed (world s)) in
  world_control a = STEP →
  (numActuators (plugin s) ≤ length (motor a))%nat →
  esc_sized (plugin s) → imu_sized (plugin s) →
  Forall (in_range (plugin s)) cbs →
  ∃ q, run_callbacks narrow (plugin s) cbs = Some q ∧
    (numSensorCallbacks (plugin s) ≤ Z.of_nat (length cbs) →
       outcome r = None ∧
       last (added s r) =
         Some (sendto (stamped (S (SimTime (world s))) (state q)) from) ∧
       state (plugin (final r)) = stamped (S (SimTime (world s))) (state q)) ∧
    (Z.of_nat (length cbs) < numSensorCallbacks (plugin s) →
       outcome r = Some Blocked ∧
       filter is_sendto (added s r) = [] ∧
       sensorCallbackCount (plugin (final r)) =
         Z.of_nat (length cbs) - numSensorCallbacks (plugin s)).
Proof.
  intros a r cbs Hstep Hlen Hesc Himu Hin.
  destruct (proj2 (run_callbacks_defined narrow cbs (plugin s) Hesc Himu) Hin)
    as [q Hq].
  exists q. split; [done|].
  set (armed := ResetCallbackCount (with_received (plugin s) a from)).
  assert (Harmed : is_Some (run_callbacks narrow armed cbs)).
  { by apply run_callbacks_defined. }
  destruct Harmed as [q' Hq'].
  pose proof (run_callbacks_count narrow cbs armed q' Hq') as Hcount.
  pose proof (run_callbacks_session narrow cbs armed q' Hq') as (_ & _ & _ & _ & Hfrom).
  pose proof (run_callbacks_state narrow cbs armed (plugin s) eq_refl) as Hstate.
  rewrite Hq', Hq in Hstate. simpl in Hstate, Hcount, Hfrom.
  injection Hstate as Hstate.
  assert (Hr : r =
    if sensorCallbackCount q' <? 0
    then Halted Blocked
           {| plugin := with_state q' (stamped (S (SimTime (world s))) (state q'));
              world := {| SimTime := S (SimTime (world s));
                          feed := tail (feed (world s)) |};
              trace := trace s ++
                [Armed (-1 * numSensorCallbacks (plugin s));
                 Publish (take (numActuators (plugin s)) (motor a));
                 Step 1; AwaitSensors] |}
    else Done tt
           {| plugin := with_state q' (stamped (S (SimTime (world s))) (state q'));
              world := {| SimTime := S (SimTime (world s));
                          feed := tail (feed (world s)) |};
              trace := trace s ++
                [Armed (-1 * numSensorCallbacks (plugin s));
                 Publish (take (numActuators (plugin s)) (motor a));
                 Step 1; AwaitSensors;
                 sendto (stamped (S (SimTime (world s))) (state q')) from] |}).
  { subst r. rewrite STEP_turn_unfold by done. fold a.
    rewrite (add_motors_spec a (numActuators (plugin s)) 0 []) by done.
    simpl. rewrite drop_0, world_Step_1_spec. simpl.
    match goal with |- context [deliver narrow ?cbs0 ?s0] =>
      pose proof (deliver_spec narrow cbs0 s0) as Hd end.
    simpl in Hd. fold a armed cbs in Hd. rewrite Hq' in Hd.
    fold a armed cbs. rewrite Hd, WaitForSensorsThenSend_spec. simpl.
    rewrite Hfrom.
    destruct (sensorCallbackCount q' <? 0); by rewrite <- !app_assoc. }
  split; intros Hcmp.
  - destruct (Z.ltb_spec (sensorCallbackCount q') 0) as [|_]; [lia|].
    rewrite Hr. simpl. split; [done|]. rewrite <- Hstate. split; [|done].
    erewrite added_app; [|done]. done.
  - destruct (Z.ltb_spec (sensorCallbackCount q') 0) as [_|]; [|lia].
    rewrite Hr. simpl. split; [done|]. split; [|lia].
    erewrite added_app; [|done]. done.
Qed.

Lemma keep_flushing_false_settled (st : State) :
  keep_flushing st = Some false → settled (imu_angular_velocity_rpy st).
Proof.
  unfold keep_flushing, get_at, settled, above_tolerance.
  destruct (imu_angular_velocity_rpy st) as [|r [|p [|y rest]]]; simpl; try done.
  - by destruct (error <? abs r)%float, (error <? abs p)%float.
  - intros H. exists r, p, y, rest. split; [done|].
    destruct (error <? abs r)%float; [done|].
    destruct (error <? abs p)%float; [done|].
    destruct (error <? abs y)%float; [done|]. done.
Qed.

(** X17.  Every reply to a [RESET] carries the time zero, because the settle
    sequence always ends on a reset of the simulation time, and an angular
    velocity with three axes none of which is above the tolerance 0.017: the
    turn does not come back otherwise. *)
Theorem RESET_reply_is_settled_and_at_time_zero
    narrow ParseFromString (fuel : nat) (buf : list byte) (from : Addr)
    (s s' : Sys) :
  world_control (fst (ParseFromString (take 1024 buf))) = RESET →
  LoopThread_turn narrow ParseFromString fuel (Some (buf, from)) s = Done tt s' →
  sim_time (state (plugin s')) = 0%nat ∧
  SimTime (world s') = 0%nat ∧
  settled (imu_angular_velocity_rpy (state (plugin s'))) ∧
  last (trace s') = Some (sendto (state (plugin s')) from).
Proof.
  intros Hreset. rewrite RESET_turn_unfold by done. rewrite FlushSensors_unfold.
  match goal with |- context [FlushSensors_loop narrow fuel ?s1] =>
    pose proof (FlushSensors_loop_Done narrow fuel s1) as HDone;
    pose proof (FlushSensors_loop_events narrow fuel s1)
      as (_ & _ & _ & (_ & _ & _ & _ & Hfrom));
    destruct (FlushSensors_loop narrow fuel s1) as [[] s2|h s2]
  end; [|done].
  destruct (HDone s2 eq_refl) as (M & _ & _ & _ & Hk & Htime & _).
  simpl in Htime, Hfrom. intros [= <-]. simpl.
  assert (Hzero : SimTime (world s2) = 0%nat) by (by destruct M).
  rewrite Hzero, Hfrom. split; [done|]. split; [done|].
  split; [by apply keep_flushing_false_settled|]. by rewrite last_snoc.
Qed.

Lemma esc_only_keeps_rpy narrow cbs : ∀ p q,
  Forall (λ cb, is_OnEsc cb = true) cbs →
  run_callbacks narrow p cbs = Some q →
  imu_angular_velocity_rpy (state q) = imu_angular_velocity_rpy (state p).
Proof.
  induction cbs as [|cb cbs IH]; simpl; intros p q Hesc Hrun; [by simplify_eq|].
  apply Forall_cons in Hesc as [Hcb Hesc].
  destruct (run_callback narrow p cb) as [p1|] eqn:Hp1; [|done]. simpl in Hrun.
  rewrite (IH p1 q Hesc Hrun). destruct cb as [m|m]; [|done]. simpl in Hp1.
  by apply EscSensorCallback_inv in Hp1 as (_ & _ & _ & _ & ->).
Qed.

Lemma keep_flushing_rpy (st1 st2 : State) :
  imu_angular_velocity_rpy st1 = imu_angular_velocity_rpy st2 →
  keep_flushing st1 = keep_flushing st2.
Proof. unfold keep_flushing. by intros ->. Qed.

Lemma FlushSensors_loop_without_imu narrow fuel : ∀ s,
  keep_flushing (state (plugin s)) = Some true →
  Forall (Forall (λ cb, is_OnEsc cb = true)) (feed (world s)) →
  outcome (FlushSensors_loop narrow fuel s) ≠ None.
Proof.
  induction fuel as [|fuel IH]; intros s Hk Hfeed; [done|].
  rewrite FlushSensors_loop_S, Hk.
  match goal with |- context [deliver narrow ?cbs ?s0] =>
    pose proof (deliver_spec narrow cbs s0) as Hd end.
  simpl in Hd.
  destruct (run_callbacks narrow _ _) as [q|] eqn:Hq.
  - rewrite Hd. simpl. apply IH; simpl.
    + rewrite <- Hk. apply keep_flushing_rpy.
      eapply esc_only_keeps_rpy; [|done].
      destruct (feed (world s)) as [|cbs fd]; [constructor|].
      by apply Forall_cons in Hfeed as [? _].
    + destruct (feed (world s)) as [|cbs fd]; [constructor|].
      by apply Forall_cons in Hfeed as [_ ?].
  - by destruct Hd as (q & -> & _).
Qed.

(** X18.  If no tick to come runs an IMU callback (the IMU is not enabled,
    say) and the angular velocity in the store is not settled, which is the
    case right after [InitState], then a [RESET] is never answered: whatever
    the fuel, the turn does not come back and sends no state. *)
Theorem RESET_is_never_answered_without_imu_callbacks
    narrow ParseFromString (fuel : nat) (buf : list byte) (from : Addr) (s : Sys) :
  let r := LoopThread_turn narrow ParseFromString fuel (Some (buf, from)) s in
  world_control (fst (ParseFromString (take 1024 buf))) = RESET →
  not_settled (imu_angular_velocity_rpy (state (plugin s))) →
  Forall (Forall (λ cb, is_OnEsc cb = true)) (feed (world s)) →
  outcome r ≠ None ∧ filter is_sendto (added s r) = [].
Proof.
  intros r Hreset Hns Hfeed.
  assert (Hout : outcome r ≠ None).
  { subst r. rewrite RESET_turn_unfold by done. rewrite FlushSensors_unfold.
    match goal with |- context [FlushSensors_loop narrow fuel ?s1] =>
      pose proof (FlushSensors_loop_without_imu narrow fuel s1) as Hloop;
      destruct (FlushSensors_loop narrow fuel s1) as [[] s2|h s2]
    end; [|done].
    exfalso. apply Hloop; [|done..]. simpl. by apply keep_flushing_not_settled. }
  split; [done|].
  pose proof (LoopThread_turn_sends narrow ParseFromString fuel buf from s) as Hsends.
  fold r in Hsends. destruct r as [[] s1|h s1]; [done|].
  destruct Hsends as (evs & Htr & Hevs).
  erewrite added_app; [|exact Htr]. done.
Qed.

(** X19.  The topics [Load] subscribes to are exactly those of the enabled
    sensors: the IMU topic is subscribed exactly when [SensorEnabled] answers
    true for the IMU, and the ESC topic of index [i] exactly when it answers
    true for the ESC and [i] is below the actuator count.  [SensorEnabled]
    itself answers true exactly for the members of the sensor list. *)
Theorem subscriptions_follow_SensorEnabled (p : Plugin) (sensor : Sensors) (i : nat) :
  (SensorEnabled p sensor = true ↔ sensor ∈ supportedSensors p) ∧
  (Subscribe_imu ∈ subscribe_all p ↔ SensorEnabled p IMU = true) ∧
  (Subscribe_esc i ∈ subscribe_all p ↔
     SensorEnabled p ESC = true ∧ (i < numActuators p)%nat).
Proof.
  unfold SensorEnabled, subscribe_all.
  induction (supportedSensors p) as [|x l (IH1 & IH2 & IH3)]; simpl.
  - rewrite !elem_of_nil. split; [by split|]. split; split; try done.
    by intros [? _].
  - split; [|split].
    + rewrite elem_of_cons. case_decide as Hx.
      * split; [by left; symmetry | done].
      * rewrite IH1. split; [by right | by intros [->|?]].
    + destruct x; simpl.
      * split; [done|]. intros _. apply list_elem_of_here.
      * rewrite elem_of_app, IH2.
        split; [|by right]. intros [Hin|?]; [|done].
        apply list_elem_of_fmap in Hin as (? & ? & _). done.
    + destruct x; simpl.
      * rewrite elem_of_cons, IH3.
        split; [by intros [?|?] | by right].
      * rewrite elem_of_app, IH3.
        split.
        -- intros [Hin|[_ ?]]; [|done].
           apply list_elem_of_fmap in Hin as (j & [= ->] & Hj).
           apply elem_of_seq in Hj. split; [done|lia].
        -- intros [_ Hi]. left. apply list_elem_of_fmap. exists i.
           split; [done|]. apply elem_of_seq. lia.
Qed.

Lemma no_sendto_no_destination evs :
  filter is_sendto evs = [] → omap destination evs = [].
Proof.
  induction evs as [|e evs IH]; [done|].
  destruct e; simpl; try (rewrite filter_cons_False by (by intros ?); apply IH).
  by rewrite filter_cons_True.
Qed.

(** X20.  Every state is sent to the sender of the datagram it answers: the
    destinations of the states sent in a run are, in order, the senders of
    the datagrams the run has finished with; all of them when the run comes
    back. *)
Theorem replies_go_to_the_senders_in_order
    narrow ParseFromString (fuel : nat)
    (datagrams : list (option (list byte * Addr))) (s : Sys) :
  let r := LoopThread narrow ParseFromString fuel datagrams s in
  omap destination (added s r) `prefix_of` senders datagrams ∧
  (outcome r = None → omap destination (added s r) = senders datagrams).
Proof.
  intros r.
  assert (H : ∃ evs, trace (final r) = trace s ++ evs ∧
    omap destination evs `prefix_of` senders datagrams ∧
    (outcome r = None → omap destination evs = senders datagrams)).
  { subst r. revert s.
    induction datagrams as [|[[buf from]|] ds IH]; intros s.
    - exists []. simpl. by rewrite app_nil_r.
    - rewrite LoopThread_cons.
      pose proof (LoopThread_turn_sends narrow ParseFromString fuel buf from s)
        as Hturn.
      change (senders (Some (buf, from) :: ds)) with (from :: senders ds).
      destruct (LoopThread_turn narrow ParseFromString fuel _ s) as [[] s1|h s1].
      + destruct Hturn as (evs & Htr & Hevs).
        destruct (IH s1) as (evs' & Htr' & Hpre & Hall).
        exists ((evs ++ [sendto (state (plugin s1)) from]) ++ evs').
        rewrite Htr', Htr, <- !app_assoc. split; [done|].
        rewrite !omap_app, (no_sendto_no_destination evs Hevs). simpl.
        split; [by apply prefix_cons | by intros ->%Hall].
      + destruct Hturn as (evs & Htr & Hevs). exists evs. simpl.
        split; [done|]. rewrite (no_sendto_no_destination evs Hevs).
        split; [apply prefix_nil | done].
    - rewrite LoopThread_cons, LoopThread_turn_None. apply IH. }
  destruct H as (evs & Htr & Hpre & Hall).
  apply added_app in Htr. by rewrite Htr.
Qed.

(** * Worked instances of the further properties *)

Lemma split_of_the_configured_list :
  Config.tokens ≠ [] ∧
  Forall (λ tok, has_comma tok = false) Config.tokens ∧
  split "IMU,,Esc,imu" = Config.tokens.
Proof.
  assert (H1 : Config.tokens ≠ []) by discriminate.
  assert (H2 : Forall (λ tok, has_comma tok = false) Config.tokens)
    by (repeat constructor).
  split; [exact H1|]. split; [exact H2|].
  exact (proj1 (split_of_joined_tokens Config.tokens H1 H2)).
Defined.

Lemma LoadVars_on_a_taken_port :
  LoadVars Rig.no_env Rig.no_stoi Rig.port_taken Rig.constructed =
    Some (Rig.constructed, [gzerr (failed_to_bind_aborting_plugin 9002)]) ∧
  supportedSensors Rig.constructed = supportedSensors Rig.constructed ∧
  state Rig.constructed = State_new.
Proof.
  assert (H1 : LoadVars Rig.no_env Rig.no_stoi Rig.port_taken Rig.constructed =
               Some (Rig.constructed, [gzerr (failed_to_bind_aborting_plugin 9002)]))
    by reflexivity.
  split; [exact H1|].
  destruct (LoadVars_logs_once_and_keeps_the_sensor_list
              Rig.no_env Rig.no_stoi Rig.port_taken _ _ _ H1)
    as (_ & _ & Hkeep & _ & _ & _ & _ & Hstate).
  split; [apply Hkeep; discriminate | exact Hstate].
Defined.

Lemma LoadVars_of_the_configured_list :
  Config.env ENV_SITL_PORT = None ∧
  Config.port_free 9002 = true ∧
  Config.stoi "2" = Some (Z.of_nat 2) ∧
  ∃ p, LoadVars Config.env Config.stoi Config.port_free Rig.constructed = Some (p, []) ∧
       supportedSensors p = [IMU; ESC; IMU] ∧ numActuators p = 2%nat.
Proof.
  assert (H1 : Config.env ENV_SITL_PORT = None) by reflexivity.
  assert (H2 : Config.port_free 9002 = true) by reflexivity.
  assert (H3 : Config.env ENV_DIGITAL_TWIN_SDF = Some "twin.sdf"%string) by reflexivity.
  assert (H4 : Config.env ENV_NUM_MOTORS = Some "2"%string) by reflexivity.
  assert (H5 : Config.stoi "2" = Some (Z.of_nat 2)) by reflexivity.
  assert (H6 : Config.tokens ≠ []) by discriminate.
  assert (H7 : Forall (λ tok, has_comma tok = false) Config.tokens)
    by (repeat constructor).
  assert (H8 : Config.env ENV_SUPPORTED_SENSORS = Some (join Config.tokens))
    by reflexivity.
  split; [exact H1|]. split; [exact H2|]. split; [exact H5|].
  eexists. split.
  - exact (LoadVars_reads_the_sensor_list Config.env Config.stoi Config.port_free
             Rig.constructed _ _ 2 Config.tokens H1 H2 H3 H4 H5 H6 H7 H8).
  - split; reflexivity.
Defined.

Lemma failed_Load_subscribes_to_nothing_on_the_rig :
  supportedSensors Rig.constructed = [] ∧
  state Rig.constructed = State_new ∧
  ∃ p, Load Rig.no_env Rig.no_stoi Rig.port_taken Rig.constructed =
         Some (p, [gzerr (failed_to_bind_aborting_plugin 9002);
                   Advertise_cmd; SetPaused; StartLoopThread]) ∧
       numSensorCallbacks p = 0.
Proof.
  assert (H1 : supportedSensors Rig.constructed = []) by reflexivity.
  assert (H2 : state Rig.constructed = State_new) by reflexivity.
  assert (H3 : LoadVars Rig.no_env Rig.no_stoi Rig.port_taken Rig.constructed =
               Some (Rig.constructed, [gzerr (failed_to_bind_aborting_plugin 9002)]))
    by reflexivity.
  split; [exact H1|]. split; [exact H2|].
  destruct (Load_after_failed_LoadVars_subscribes_to_nothing
              Rig.no_env Rig.no_stoi Rig.port_taken _ _ _ H1 H2 H3)
    as (p & Hload & _ & Hbudget & _).
  exists p. split; [exact Hload | exact Hbudget].
Defined.

Lemma Load_of_the_full_configuration :
  supportedSensors Rig.constructed = [] ∧
  numSensorCallbacks Rig.constructed = 0 ∧
  state Rig.constructed = State_new ∧
  ∃ p log, Load Config.env Config.stoi Config.port_free Rig.constructed = Some (p, log) ∧
    numSensorCallbacks p = 4 ∧ length log = 7%nat ∧ esc_sized p.
Proof.
  assert (H1 : supportedSensors Rig.constructed = []) by reflexivity.
  assert (H2 : numSensorCallbacks Rig.constructed = 0) by reflexivity.
  assert (H3 : state Rig.constructed = State_new) by reflexivity.
  assert (H4 : ∃ p, LoadVars Config.env Config.stoi Config.port_free Rig.constructed
                    = Some (p, [])) by (eexists; reflexivity).
  destruct H4 as [p' H4].
  split; [exact H1|]. split; [exact H2|]. split; [exact H3|].
  destruct (Load_of_a_full_configuration
              Config.env Config.stoi Config.port_free _ _ H1 H2 H3 H4)
    as (Hload & Hbudget & _ & Hesc).
  eexists _, _. split; [exact Hload|].
  injection H4 as <-. split; [|split; [|exact Hesc]]; reflexivity.
Defined.

Lemma callbacks_on_the_rig :
  esc_sized Rig.loaded ∧ imu_sized Rig.loaded ∧
  Forall (in_range Rig.loaded) (Rig.tick_with 0.5) ∧
  ∃ p, run_callbacks Rig.exact Rig.loaded (Rig.tick_with 0.5) = Some p ∧
       esc_sized p ∧ sensorCallbackCount p = 3.
Proof.
  assert (H1 : esc_sized Rig.loaded) by (repeat split).
  assert (H2 : imu_sized Rig.loaded) by (repeat split).
  assert (H3 : Forall (in_range Rig.loaded) (Rig.tick_with 0.5)).
  { repeat constructor; simpl; lia. }
  split; [exact H1|]. split; [exact H2|]. split; [exact H3|].
  destruct (callbacks_keep_the_store_sized Rig.exact Rig.loaded
              (Rig.tick_with 0.5) H1 H2) as (Hdef & Hkeep).
  destruct (proj2 Hdef H3) as [p Hp]. exists p. split; [exact Hp|].
  destruct (Hkeep p Hp) as (Hesc & _ & _ & Hcount).
  split; [exact Hesc | exact Hcount].
Defined.

Lemma ImuCallback_on_the_rig :
  imu_sized Rig.loaded ∧
  ∃ p, ImuCallback Rig.exact Rig.loaded (Rig.imu_msg 0.5) = Some p ∧
       imu_angular_velocity_rpy (state p) = [0.5; 0; 0]%float ∧
       esc_temperature (state p) = [10000; 10000]%float.
Proof.
  assert (H1 : imu_sized Rig.loaded) by (repeat split).
  split; [exact H1|].
  destruct (ImuCallback_overwrites_the_imu_arrays Rig.exact Rig.loaded
              (Rig.imu_msg 0.5) H1) as (p & Hp & Himu & _ & Htemp & _).
  exists p. split; [exact Hp|]. split.
  - injection Himu as Hrpy _ _. exact Hrpy.
  - exact Htemp.
Defined.

Lemma callbacks_in_reverse_on_the_rig :
  esc_sized Rig.loaded ∧ imu_sized Rig.loaded ∧
  NoDup (channel <$> Rig.tick_with 0.5) ∧
  Rig.tick_with 0.5 ≡ₚ reverse (Rig.tick_with 0.5) ∧
  run_callbacks Rig.exact Rig.loaded (Rig.tick_with 0.5) =
  run_callbacks Rig.exact Rig.loaded (reverse (Rig.tick_with 0.5)).
Proof.
  assert (H1 : esc_sized Rig.loaded) by (repeat split).
  assert (H2 : imu_sized Rig.loaded) by (repeat split).
  assert (H3 : NoDup (channel <$> Rig.tick_with 0.5))
    by (by apply (bool_decide_unpack _)).
  assert (H4 : Rig.tick_with 0.5 ≡ₚ reverse (Rig.tick_with 0.5))
    by (symmetry; apply reverse_Permutation).
  split; [exact H1|]. split; [exact H2|]. split; [exact H3|]. split; [exact H4|].
  exact (callbacks_of_a_tick_commute Rig.exact Rig.loaded _ _ H1 H2 H3 H4).
Defined.

Lemma states_sent_on_the_rig :
  esc_sized (plugin Rig.sys) ∧ imu_sized (plugin Rig.sys) ∧
  Forall (sends_sized 2)
    (added Rig.sys
       (LoopThread Rig.exact Rig.decoder 3
          [Some ([x00], Rig.agent); None; Some ([x01], Rig.agent)] Rig.sys)).
Proof.
  assert (H1 : esc_sized (plugin Rig.sys)) by (repeat split).
  assert (H2 : imu_sized (plugin Rig.sys)) by (repeat split).
  split; [exact H1|]. split; [exact H2|].
  exact (every_state_sent_has_the_configured_sizes Rig.exact Rig.decoder 3
           [Some ([x00], Rig.agent); None; Some ([x01], Rig.agent)] Rig.sys H1 H2).
Defined.

Lemma STEP_reply_on_the_rig :
  world_control (fst (Rig.decoder (take 1024 [x00]))) = STEP ∧
  (numActuators (plugin Rig.sys) ≤ length (motor (fst (Rig.decoder (take 1024 [x00])))))%nat ∧
  esc_sized (plugin Rig.sys) ∧ imu_sized (plugin Rig.sys) ∧
  Forall (in_range (plugin Rig.sys)) (hd [] (feed (world Rig.sys))) ∧
  outcome (LoopThread_turn Rig.exact Rig.decoder 1 (Some ([x00], Rig.agent)) Rig.sys)
    = None.
Proof.
  assert (H1 : world_control (fst (Rig.decoder (take 1024 [x00]))) = STEP)
    by reflexivity.
  assert (H2 : (numActuators (plugin Rig.sys)
                ≤ length (motor (fst (Rig.decoder (take 1024 [x00])))))%nat)
    by (vm_compute; lia).
  assert (H3 : esc_sized (plugin Rig.sys)) by (repeat split).
  assert (H4 : imu_sized (plugin Rig.sys)) by (repeat split).
  assert (H5 : Forall (in_range (plugin Rig.sys)) (hd [] (feed (world Rig.sys)))).
  { repeat constructor; simpl; lia. }
  split; [exact H1|]. split; [exact H2|]. split; [exact H3|]. split; [exact H4|].
  split; [exact H5|].
  destruct (STEP_turn_replies_iff_the_tick_fills_the_budget
              Rig.exact Rig.decoder 1 [x00] Rig.agent Rig.sys H1 H2 H3 H4 H5)
    as (q & _ & Hfull & _).
  apply Hfull. vm_compute. discriminate.
Defined.

Lemma RESET_reply_on_the_rig :
  world_control (fst (Rig.decoder (take 1024 [x01]))) = RESET ∧
  ∃ s', LoopThread_turn Rig.exact Rig.decoder 3 (Some ([x01], Rig.agent)) Rig.sys
          = Done tt s' ∧
    sim_time (state (plugin s')) = 0%nat ∧
    settled (imu_angular_velocity_rpy (state (plugin s'))).
Proof.
  assert (H1 : world_control (fst (Rig.decoder (take 1024 [x01]))) = RESET)
    by reflexivity.
  split; [exact H1|]. eexists. split; [vm_compute; reflexivity|].
  destruct (RESET_reply_is_settled_and_at_time_zero
              Rig.exact Rig.decoder 3 [x01] Rig.agent Rig.sys _ H1
              ltac:(vm_compute; reflexivity))
    as (Htime & _ & Hsettled & _).
  split; [exact Htime | exact Hsettled].
Defined.

Lemma RESET_without_imu_on_the_rig :
  world_control (fst (Rig.decoder (take 1024 [x01]))) = RESET ∧
  not_settled (imu_angular_velocity_rpy (state Rig.loaded)) ∧
  Forall (Forall (λ cb, is_OnEsc cb = true)) (feed Config.esc_only) ∧
  outcome (LoopThread_turn Rig.exact Rig.decoder 50 (Some ([x01], Rig.agent))
             {| plugin := Rig.loaded; world := Config.esc_only; trace := [] |})
    ≠ None.
Proof.
  assert (H1 : world_control (fst (Rig.decoder (take 1024 [x01]))) = RESET)
    by reflexivity.
  assert (H2 : not_settled (imu_angular_velocity_rpy (state Rig.loaded))).
  { right. exists 1%float, 1%float, 1%float, []. split; [reflexivity|].
    left. reflexivity. }
  assert (H3 : Forall (Forall (λ cb, is_OnEsc cb = true)) (feed Config.esc_only))
    by (repeat constructor).
  split; [exact H1|]. split; [exact H2|]. split; [exact H3|].
  exact (proj1 (RESET_is_never_answered_without_imu_callbacks
                  Rig.exact Rig.decoder 50 [x01] Rig.agent
                  {| plugin := Rig.loaded; world := Config.esc_only; trace := [] |}
                  H1 H2 H3)).
Defined.
